(** * Spur support agent: the chat endpoint of [app/api/chat/route.ts]

    A shallow embedding of the two route handlers [POST] and [GET], of the
    tables of [lib/schema.ts] they read and write, and of the error mapping
    in the [catch] block of [POST].  The database server and the language
    model provider are outside the repository; what they decide during one
    request is collected in a record [Env] that every handler takes as an
    argument. *)

From Stdlib Require Import String Ascii List ZArith Lia Bool Arith.
From Stdlib Require Import Sorting.Sorted Sorting.Permutation.
Import ListNotations.

Local Open Scope string_scope.
Local Open Scope Z_scope.

(* ================================================================== *)
(** * JavaScript values the handlers look at *)

(** [String.prototype.includes]: [pat] occurs in [s] as a contiguous,
    case-sensitive run of characters. *)
Fixpoint includes (s pat : string) : bool :=
  if String.prefix pat s then true
  else match s with
       | EmptyString => false
       | String _ rest => includes rest pat
       end.

(** The value bound by [catch (error: any)].  The handler reads three
    properties through optional chaining, so a property that is missing
    and a thrown [null] or [undefined] behave alike: every field is
    optional.  [message] is a string on every [Error] the drivers throw. *)
Record JsError : Type := mkError {
  err_message : option string;
  err_status  : option Z;
  err_code    : option string
}.

(** [error?.message?.includes(pat)], as a condition. *)
Definition message_includes (error : JsError) (pat : string) : bool :=
  match err_message error with
  | Some m => includes m pat
  | None => false
  end.

(** [error?.status === n]. *)
Definition status_is (error : JsError) (n : Z) : bool :=
  match err_status error with
  | Some k => k =? n
  | None => false
  end.

(** [error?.code === c]. *)
Definition code_is (error : JsError) (c : string) : bool :=
  match err_code error with
  | Some k => String.eqb k c
  | None => false
  end.

(** JavaScript truthiness of an optional string: [undefined], [null] and
    the empty string are falsy. *)
Definition truthy (v : option string) : bool :=
  match v with
  | Some s => negb (String.eqb s "")
  | None => false
  end.

(** A completed computation either returned or threw. *)
Inductive Outcome (A : Type) : Type :=
| Returned (a : A)
| Thrown (e : JsError).
Arguments Returned {A} a.
Arguments Thrown {A} e.

(* ================================================================== *)
(** * The error mapping of [POST] (route.ts, lines 108-119) *)

Definition msg_generic : string :=
  "An error occurred while processing your request.".
Definition msg_config : string :=
  "Service configuration error. Please contact support.".
Definition msg_rate : string :=
  "Too many requests. Please wait a moment and try again.".
Definition msg_timeout : string :=
  "The request timed out. Please try again.".

(** The pair [(errorMessage, statusCode)] the [catch] block ends with. *)
Definition classify (error : JsError) : string * Z :=
  let errorMessage := msg_generic in
  let statusCode := 500 in
  if message_includes error "API_KEY" then
    (msg_config, statusCode)
  else if message_includes error "RATE_LIMIT" || status_is error 429 then
    (msg_rate, 429)
  else if message_includes error "timeout" || code_is error "ETIMEDOUT" then
    (msg_timeout, 504)
  else
    (errorMessage, statusCode).

(* ================================================================== *)
(** * The tables of [lib/schema.ts] *)

(** A row of [sessions]: [id uuid primary key default random],
    [created_at timestamp not null default now()].  A uuid value is kept
    as its canonical text, a timestamp as a count of microseconds. *)
Record Session : Type := mkSession {
  sess_id : string;
  sess_createdAt : Z
}.

(** A row of [messages]; [session_id] references [sessions.id]. *)
Record Message : Type := mkMessage {
  msg_id : string;
  msg_sessionId : string;
  msg_role : string;
  msg_content : string;
  msg_createdAt : Z
}.

(** One entry of the history given to [startChat]:
    [{ role, parts: [{ text }] }]. *)
Record Part : Type := mkPart { text : string }.
Record Content : Type := mkContent {
  role : string;
  parts : list Part
}.

(** What a request can change: the two tables, and the calls made to the
    provider, kept as a log of [(history, message)] pairs. *)
Record World : Type := mkWorld {
  sessions : list Session;
  messages : list Message;
  provider_calls : list (list Content * string)
}.

(** The database statements of the two handlers, by the line they start
    on in route.ts. *)
Inductive Stmt : Type :=
| InsertSession          (* line 42: insert(sessions).values({}) *)
| FindSession            (* line 45: select from sessions where id = ... *)
| InsertSessionWithId    (* line 49: insert(sessions).values({ id }) *)
| InsertSessionAgain     (* line 51: insert(sessions).values({}) in catch *)
| InsertUserMessage      (* line 57 *)
| SelectRecent           (* line 62 *)
| InsertAssistantMessage (* line 93 *)
| FindSessionForHistory  (* line 138 *)
| SelectHistory.         (* line 144 *)

(** Everything the handlers do not decide themselves.
    - [uuid_in]: the input routine of the column type [uuid]; [None] when
      the text is not a uuid, otherwise its canonical text.
    - [gen_random_uuid], [now]: the column defaults, per statement.
    - [fault]: a statement the environment makes fail (connection lost, a
      concurrent writer), with the error the driver throws.
    - [rejected]: the error the driver throws when the server rejects a
      statement for its data (type or constraint violation).
    - [concurrent]: rows other requests commit to [messages] between the
      append of line 57 and the read of line 62.  Rows committed earlier
      are part of the world the request starts in.
    - [generate]: the provider's answer to [startChat({history})] followed
      by [sendMessage(message)] and [response.text()]. *)
Record Env : Type := mkEnv {
  uuid_in : string -> option string;
  gen_random_uuid : Stmt -> string;
  now : Stmt -> Z;
  fault : Stmt -> option JsError;
  rejected : Stmt -> JsError;
  concurrent : list Message;
  generate : list Content -> string -> Outcome string
}.

(* ================================================================== *)
(** * A state and exception monad for [async] handler bodies *)

Definition M (A : Type) : Type := World -> Outcome A * World.

Definition ret {A : Type} (a : A) : M A := fun w => (Returned a, w).

Definition throw {A : Type} (e : JsError) : M A := fun w => (Thrown e, w).

Definition bind {A B : Type} (m : M A) (k : A -> M B) : M B :=
  fun w =>
    match m w with
    | (Returned a, w') => k a w'
    | (Thrown e, w') => (Thrown e, w')
    end.

(** [try { m } catch (e) { handler e }]. *)
Definition try_catch {A : Type} (m : M A) (handler : JsError -> M A) : M A :=
  fun w =>
    match m w with
    | (Returned a, w') => (Returned a, w')
    | (Thrown e, w') => handler e w'
    end.

(** [await] of a promise that is already settled. *)
Definition await {A : Type} (o : Outcome A) : M A := fun w => (o, w).

Notation "x <- m ;; k" := (bind m (fun x => k))
  (at level 61, m at next level, right associativity).
Notation "m ;; k" := (bind m (fun _ => k))
  (at level 61, right associativity).

(* ================================================================== *)
(** * Database statements *)

Definition has_id (u : string) (ids : list string) : bool :=
  existsb (String.eqb u) ids.

(** A statement first has to reach the server. *)
Definition statement {A : Type} (env : Env) (at_ : Stmt) (run : M A) : M A :=
  fun w =>
    match fault env at_ with
    | Some e => (Thrown e, w)
    | None => run w
    end.

(** [db.insert(sessions).values({ id? }).returning()].  A missing [id]
    takes the column default; a given one goes through the uuid input
    routine.  The primary key rejects an id the table already has. *)
Definition insert_sessions (env : Env) (at_ : Stmt) (id : option string)
  : M Session :=
  statement env at_ (fun w =>
    match (match id with
           | None => Some (gen_random_uuid env at_)
           | Some s => uuid_in env s
           end) with
    | None => (Thrown (rejected env at_), w)
    | Some u =>
        if has_id u (map sess_id (sessions w)) then
          (Thrown (rejected env at_), w)
        else
          let row := mkSession u (now env at_) in
          (Returned row,
           mkWorld (sessions w ++ [row]) (messages w) (provider_calls w))
    end).

(** [db.select().from(sessions).where(eq(sessions.id, id)).limit(1)]. *)
Definition select_sessions (env : Env) (at_ : Stmt) (id : string)
  : M (list Session) :=
  statement env at_ (fun w =>
    match uuid_in env id with
    | None => (Thrown (rejected env at_), w)
    | Some u =>
        (Returned (firstn 1 (filter (fun s => String.eqb (sess_id s) u)
                                    (sessions w))), w)
    end).

(** [db.insert(messages).values({ sessionId, role, content })]: the
    foreign key needs the session to exist, the primary key a new id. *)
Definition insert_messages (env : Env) (at_ : Stmt)
    (sessionId role_ content : string) : M Message :=
  statement env at_ (fun w =>
    match uuid_in env sessionId with
    | None => (Thrown (rejected env at_), w)
    | Some u =>
        if negb (has_id u (map sess_id (sessions w))) then
          (Thrown (rejected env at_), w)
        else if has_id (gen_random_uuid env at_) (map msg_id (messages w)) then
          (Thrown (rejected env at_), w)
        else
          let row := mkMessage (gen_random_uuid env at_) u role_ content
                               (now env at_) in
          (Returned row,
           mkWorld (sessions w) (messages w ++ [row]) (provider_calls w))
    end).

(** [ORDER BY]: insertion into a list ordered by [before], then a fold.
    Rows with equal keys keep the order of the table; the server promises
    no order among them. *)
Fixpoint insert_row (before : Message -> Message -> bool)
    (x : Message) (l : list Message) : list Message :=
  match l with
  | [] => [x]
  | y :: l' => if before x y then x :: l else y :: insert_row before x l'
  end.

Definition order_by (before : Message -> Message -> bool)
    (l : list Message) : list Message :=
  fold_right (insert_row before) [] l.

(** [orderBy(messages.createdAt)] and [orderBy(desc(messages.createdAt))]:
    [x] goes in front of the first row it does not come after. *)
Definition asc (x y : Message) : bool := msg_createdAt x <=? msg_createdAt y.
Definition desc (x y : Message) : bool := msg_createdAt y <=? msg_createdAt x.

(** [where(eq(messages.sessionId, u))] on rows. *)
Definition of_session (u : string) (l : list Message) : list Message :=
  filter (fun m => String.eqb (msg_sessionId m) u) l.

(** [db.select().from(messages).where(eq(messages.sessionId, id))
       .orderBy(order)], with [.limit(n)] when [limit] is given. *)
Definition select_messages (env : Env) (at_ : Stmt) (id : string)
    (order : Message -> Message -> bool) (limit : option nat)
  : M (list Message) :=
  statement env at_ (fun w =>
    match uuid_in env id with
    | None => (Thrown (rejected env at_), w)
    | Some u =>
        let rows := order_by order (of_session u (messages w)) in
        (Returned (match limit with
                   | Some n => firstn n rows
                   | None => rows
                   end), w)
    end).

(** Rows of other requests become visible. *)
Definition others_commit (env : Env) : M unit :=
  fun w => (Returned tt,
            mkWorld (sessions w) (messages w ++ concurrent env)
                    (provider_calls w)).

(** [model.startChat({ history }).sendMessage(message)], then
    [result.response.text()]. *)
Definition sendMessage (env : Env) (history : list Content)
    (message : string) : M string :=
  fun w => (generate env history message,
            mkWorld (sessions w) (messages w)
                    (provider_calls w ++ [(history, message)])).

(* ================================================================== *)
(** * Requests and responses *)

(** The body of a [POST], typed by [ChatRequest] of types.ts; a field that
    is missing or [null] is [None]. *)
Record ChatRequest : Type := mkChatRequest {
  message : option string;
  sessionId : option string
}.

(** What the handlers read of a [NextRequest]: the result of line 33,
    [req.json()] and the destructuring of what it returns (a request
    without a body, or with a body that is not JSON or is [null], throws
    there), and of [req.nextUrl.searchParams.get('sessionId')]. *)
Record NextRequest : Type := mkRequest {
  json : Outcome ChatRequest;
  searchParams_sessionId : option string
}.

(** The JSON values the handlers put in a response body. *)
Inductive Json : Type :=
| JString (s : string)
| JRows (rows : list Message).

(** [NextResponse.json(body, { status })]. *)
Record NextResponse : Type := mkResponse {
  body : list (string * Json);
  status : Z
}.

Definition NextResponse_json (fields : list (string * Json)) (status_ : Z)
  : NextResponse := mkResponse fields status_.

(** The value of a field of a response body, if the body has it. *)
Fixpoint field (name : string) (fields : list (string * Json)) : option Json :=
  match fields with
  | [] => None
  | (k, v) :: rest => if String.eqb k name then Some v else field name rest
  end.

(* ================================================================== *)
(** * [POST]: send a message (route.ts, lines 31-126) *)

(** Lines 39-55: the session the message is attached to. *)
Definition currentSessionId (env : Env) (sessionId_ : option string)
  : M string :=
  match sessionId_ with
  | Some supplied =>
      if truthy sessionId_ then
        existingSession <- select_sessions env FindSession supplied ;;
        if (length existingSession =? 0)%nat then
          try_catch
            (insert_sessions env InsertSessionWithId (Some supplied) ;;
             ret supplied)
            (fun _ =>
               newSession <- insert_sessions env InsertSessionAgain None ;;
               ret (sess_id newSession))
        else ret supplied
      else
        newSession <- insert_sessions env InsertSession None ;;
        ret (sess_id newSession)
  | None =>
      newSession <- insert_sessions env InsertSession None ;;
      ret (sess_id newSession)
  end.

(** Lines 62-67. *)
Definition previousMessages (env : Env) (current : string)
  : M (list Message) :=
  select_messages env SelectRecent current desc (Some 7%nat).

(** Lines 69-71: drop the newest row when it carries the message just
    sent. *)
Definition historyMessages (previous : list Message) (message_ : string)
  : list Message :=
  match previous with
  | newest :: older =>
      if String.eqb (msg_content newest) message_ then older else previous
  | [] => previous
  end.

(** Lines 73-76. *)
Definition to_content (msg : Message) : Content :=
  mkContent (if String.eqb (msg_role msg) "user" then "user" else "model")
            [mkPart (msg_content msg)].

Definition history (previous : list Message) (message_ : string)
  : list Content :=
  map to_content (rev (historyMessages previous message_)).

(** Lines 104-125: the [catch] block. *)
Definition on_error (error : JsError) : M NextResponse :=
  let (errorMessage, statusCode) := classify error in
  ret (NextResponse_json [("error", JString errorMessage)] statusCode).

Definition POST (env : Env) (req : NextRequest) : M NextResponse :=
  try_catch
    (request <- await (json req) ;;
     match message request with
     | Some message_ =>
         if truthy (message request) then
           current <- currentSessionId env (sessionId request) ;;
           insert_messages env InsertUserMessage current "user" message_ ;;
           others_commit env ;;
           previous <- previousMessages env current ;;
           responseText <- sendMessage env (history previous message_)
                                       message_ ;;
           insert_messages env InsertAssistantMessage current "assistant"
                           responseText ;;
           ret (NextResponse_json [("reply", JString responseText);
                                   ("sessionId", JString current)] 200)
         else
           ret (NextResponse_json [("error", JString "Message is required")]
                                  400)
     | None =>
         ret (NextResponse_json [("error", JString "Message is required")]
                                400)
     end)
    on_error.

(* ================================================================== *)
(** * [GET]: fetch the history of a session (route.ts, lines 129-159) *)

Definition GET (env : Env) (req : NextRequest) : M NextResponse :=
  try_catch
    (match searchParams_sessionId req with
     | Some sessionId_ =>
         if truthy (searchParams_sessionId req) then
           existingSession <-
             select_sessions env FindSessionForHistory sessionId_ ;;
           if (length existingSession =? 0)%nat then
             ret (NextResponse_json [("messages", JRows [])] 200)
           else
             rows <- select_messages env SelectHistory sessionId_ asc None ;;
             ret (NextResponse_json [("messages", JRows rows)] 200)
         else
           ret (NextResponse_json [("error", JString "Session ID is required")]
                                  400)
     | None =>
         ret (NextResponse_json [("error", JString "Session ID is required")]
                                400)
     end)
    (fun _ =>
       ret (NextResponse_json [("error", JString "Failed to fetch chat history.")]
                              500)).

(* ================================================================== *)
(** * Runs of [POST] that get as far as the provider *)

(** Lines 78-102 under the [catch] of line 104: what is left of [POST]
    once the window has been read. *)
Definition complete (env : Env) (current message_ : string)
    (previous : list Message) : M NextResponse :=
  try_catch
    (responseText <- sendMessage env (history previous message_) message_ ;;
     insert_messages env InsertAssistantMessage current "assistant"
                     responseText ;;
     ret (NextResponse_json [("reply", JString responseText);
                             ("sessionId", JString current)] 200))
    on_error.

(** The request carries the message [message_], the session resolved to
    [current], the user message was appended as [row], and the read of
    line 62 answered [previous] in the world [at_read]. *)
Definition reaches_provider (env : Env) (req : NextRequest) (w : World)
    (message_ current : string) (row : Message) (previous : list Message)
    (at_read : World) : Prop :=
  exists request w1 w2,
    json req = Returned request /\
    message request = Some message_ /\
    message_ <> "" /\
    currentSessionId env (sessionId request) w = (Returned current, w1) /\
    insert_messages env InsertUserMessage current "user" message_ w1
      = (Returned row, w2) /\
    others_commit env w2 = (Returned tt, at_read) /\
    previousMessages env current at_read = (Returned previous, at_read).

(* ================================================================== *)
(** * The [catch] block of the other [POST] (page.tsx, lines 362-455)

    The file page.tsx carries a second copy of the route whose [try]
    block is the one above and whose [catch] block tells seven cases
    apart on the lower-cased text of the error. *)

(** What [catch (error: any)] can bind: [null] or [undefined], a thrown
    string, or an object with the properties of [JsError], a
    [statusCode], and the string [String(error)] prints it as. *)
Inductive Caught : Type :=
| CaughtNothing
| CaughtText (s : string)
| CaughtObject (error : JsError) (statusCode : option Z) (printed : string).

(** [String(error?.message || error || '')], line 365 before
    [toLowerCase]: the message when it is a non-empty string, the error
    itself otherwise, the empty string for nothing. *)
Definition error_text (error : Caught) : string :=
  match error with
  | CaughtNothing => ""
  | CaughtText s => s
  | CaughtObject e _ printed =>
      match err_message e with
      | Some m => if truthy (Some m) then m else printed
      | None => printed
      end
  end.

(** [error?.status || error?.statusCode], line 366: a status that is
    missing or zero gives way to the status code. *)
Definition errorStatus (error : Caught) : option Z :=
  match error with
  | CaughtObject e statusCode _ =>
      match err_status e with
      | Some k => if k =? 0 then statusCode else Some k
      | None => statusCode
      end
  | _ => None
  end.

(** [errorStatus === n]. *)
Definition is_status (s : option Z) (n : Z) : bool :=
  match s with
  | Some k => k =? n
  | None => false
  end.

Definition msg_unavailable : string :=
  "Our AI service is temporarily unavailable. Please try again later.".
Definition msg_took_too_long : string :=
  "The request took too long. Please try again.".
Definition msg_model_unavailable : string :=
  "AI service is temporarily unavailable. Please try again later.".
Definition msg_blocked : string :=
  "I apologize, but I cannot respond to that. Please try a different question.".
Definition msg_went_wrong : string :=
  "Sorry, something went wrong. Please try again.".

(** Lines 365-454.  [toLowerCase] is the method of JavaScript strings;
    the handler is read for any function in its place. *)
Definition error_guardrails (toLowerCase : string -> string) (error : Caught)
  : string * Z :=
  let errorString := toLowerCase (error_text error) in
  let errorStatus := errorStatus error in
  if includes errorString "quota"
     || includes errorString "exhausted"
     || includes errorString "billing"
     || includes errorString "insufficient"
     || is_status errorStatus 402
  then (msg_unavailable, 503)
  else if includes errorString "api_key"
          || includes errorString "api key"
          || includes errorString "invalid key"
          || includes errorString "unauthorized"
          || includes errorString "authentication"
          || is_status errorStatus 401 || is_status errorStatus 403
  then (msg_config, 503)
  else if includes errorString "rate"
          || includes errorString "limit"
          || includes errorString "too many"
          || is_status errorStatus 429
  then (msg_rate, 429)
  else if includes errorString "timeout"
          || includes errorString "timed out"
          || includes errorString "etimedout"
          || includes errorString "econnreset"
          || is_status errorStatus 504 || is_status errorStatus 408
  then (msg_took_too_long, 504)
  else if includes errorString "model"
          || includes errorString "not found"
          || includes errorString "unavailable"
          || is_status errorStatus 404
  then (msg_model_unavailable, 503)
  else if includes errorString "safety"
          || includes errorString "blocked"
          || includes errorString "harmful"
          || includes errorString "policy"
  then (msg_blocked, 400)
  else (msg_went_wrong, 500).

(* ================================================================== *)
(** * The statements of the specification, as definitions *)

(** An ordered rule list, first match wins: the reading of the [if]
    chain of [classify] that the specification gives. *)
Definition Rule : Type := (JsError -> bool) * (string * Z).

Fixpoint first_match (rules : list Rule) (default : string * Z)
    (error : JsError) : string * Z :=
  match rules with
  | [] => default
  | (condition, answer) :: rest =>
      if condition error then answer else first_match rest default error
  end.

Definition rules : list Rule :=
  [ (fun e => message_includes e "API_KEY", (msg_config, 500));
    (fun e => message_includes e "RATE_LIMIT" || status_is e 429,
     (msg_rate, 429));
    (fun e => message_includes e "timeout" || code_is e "ETIMEDOUT",
     (msg_timeout, 504)) ].

(** [pat] occurs in [s]. *)
Definition occurs_in (pat s : string) : Prop :=
  exists before after, s = before ++ pat ++ after.

(** [fetched] is the [n] most recent rows of [rows], newest first: it is
    ordered by [createdAt] descending, it is [rows] without [rest], no row
    of [rest] is newer than a fetched one, and rows are left out only when
    there are more than [n]. *)
Definition newest_first (l : list Message) : Prop :=
  StronglySorted (fun x y => msg_createdAt y <= msg_createdAt x) l.

Definition oldest_first (l : list Message) : Prop :=
  StronglySorted (fun x y => msg_createdAt x <= msg_createdAt y) l.

Definition most_recent (n : nat) (rows fetched : list Message) : Prop :=
  newest_first fetched /\
  length fetched = Nat.min n (length rows) /\
  exists rest,
    Permutation rows (fetched ++ rest) /\
    forall x y, In x fetched -> In y rest ->
                msg_createdAt y <= msg_createdAt x.

(** The entry [c] of a history stands for the row [msg]: it carries the
    content as its one part, and its role is "user" for a user row and
    "model" for every other. *)
Definition provider_entry (msg : Message) (c : Content) : Prop :=
  parts c = [mkPart (msg_content msg)] /\
  (msg_role msg = "user" -> role c = "user") /\
  (msg_role msg <> "user" -> role c = "model").

(** Every row of [l] was created before [row]. *)
Definition all_older (row : Message) (l : list Message) : Prop :=
  Forall (fun x => msg_createdAt x < msg_createdAt row) l.

(** [rows] are the rows of [table] that belong to the session [u], and
    [others] the rest of the table. *)
Definition session_rows (u : string) (table rows : list Message) : Prop :=
  exists others,
    Permutation table (rows ++ others) /\
    Forall (fun x => msg_sessionId x = u) rows /\
    Forall (fun x => msg_sessionId x <> u) others.

(** No two rows carry the same [createdAt]. *)
Definition distinct_createdAt (l : list Message) : Prop :=
  NoDup (map msg_createdAt l).



(* ================================================================== *)
(** * A concrete environment *)

(** The input routine of PostgreSQL's [uuid] type: sixteen pairs of
    hexadecimal digits, either case, a hyphen allowed after every second
    pair, the whole optionally in braces.  The value is printed in lower
    case with hyphens after the digits 8, 12, 16 and 20. *)
Definition is_xdigit (c : ascii) : bool :=
  let n := nat_of_ascii c in
  ((48 <=? n) && (n <=? 57) || (65 <=? n) && (n <=? 70)
   || (97 <=? n) && (n <=? 102))%nat.

Definition to_lower (c : ascii) : ascii :=
  let n := nat_of_ascii c in
  if ((65 <=? n) && (n <=? 90))%nat then ascii_of_nat (n + 32) else c.

Fixpoint uuid_pairs (i remaining : nat) (src : list ascii)
  : option (list ascii * list ascii) :=
  match remaining with
  | O => Some ([], src)
  | S remaining' =>
      match src with
      | a :: b :: src' =>
          if is_xdigit a && is_xdigit b then
            let next :=
              match src' with
              | "-"%char :: after =>
                  if Nat.odd i && (i <? 15)%nat then after else src'
              | _ => src'
              end in
            match uuid_pairs (S i) remaining' next with
            | Some (digits, rest) =>
                Some (to_lower a :: to_lower b :: digits, rest)
            | None => None
            end
          else None
      | _ => None
      end
  end.

Definition uuid_out (digits : list ascii) : string :=
  string_of_list_ascii
    (firstn 8 digits ++ "-"%char :: firstn 4 (skipn 8 digits)
     ++ "-"%char :: firstn 4 (skipn 12 digits)
     ++ "-"%char :: firstn 4 (skipn 16 digits)
     ++ "-"%char :: skipn 20 digits).

Definition pg_uuid_in (s : string) : option string :=
  let src := list_ascii_of_string s in
  let (braces, digits_at) :=
    match src with
    | "{"%char :: after => (true, after)
    | _ => (false, src)
    end in
  match uuid_pairs 0 16 digits_at with
  | Some (digits, rest) =>
      match braces, rest with
      | false, [] => Some (uuid_out digits)
      | true, ["}"%char] => Some (uuid_out digits)
      | _, _ => None
      end
  | None => None
  end.

(** A database that answers every statement and a provider that replies.
    The defaults give each statement its own uuid and a time after every
    row of the sample tables. *)
Definition sample_uuid (at_ : Stmt) : string :=
  match at_ with
  | InsertSession => "00000000-0000-4000-8000-000000000001"
  | InsertSessionAgain => "00000000-0000-4000-8000-000000000002"
  | InsertUserMessage => "00000000-0000-4000-8000-000000000003"
  | InsertAssistantMessage => "00000000-0000-4000-8000-000000000004"
  | _ => "00000000-0000-4000-8000-000000000000"
  end.

Definition sample_now (at_ : Stmt) : Z :=
  match at_ with
  | InsertSession | InsertSessionWithId | InsertSessionAgain => 1000
  | InsertUserMessage => 1001
  | InsertAssistantMessage => 1003
  | _ => 1002
  end.

Definition invalid_uuid_error : JsError :=
  mkError (Some "invalid input syntax for type uuid") None (Some "22P02").

Definition quota_error : JsError :=
  mkError (Some "[429 Too Many Requests] RATE_LIMIT_EXCEEDED") (Some 429) None.

Definition no_body_error : JsError :=
  mkError (Some "Unexpected end of JSON input") None None.

Definition sample_reply : string :=
  "Our support hours are Monday to Friday, 9 AM - 6 PM EST.".

Definition calm_env : Env :=
  mkEnv pg_uuid_in sample_uuid sample_now (fun _ => None)
        (fun _ => invalid_uuid_error) []
        (fun _ _ => Returned sample_reply).

(** The same, with a provider that refuses every call. *)
Definition refusing_env : Env :=
  mkEnv pg_uuid_in sample_uuid sample_now (fun _ => None)
        (fun _ => invalid_uuid_error) []
        (fun _ _ => Thrown quota_error).

(** A session with six messages, three exchanges. *)
Definition open_session : string := "aaaaaaaa-aaaa-4aaa-8aaa-aaaaaaaaaaaa".

Definition seeded_messages : list Message :=
  [ mkMessage "10000000-0000-4000-8000-000000000001" open_session
              "user" "What are your hours?" 10;
    mkMessage "10000000-0000-4000-8000-000000000002" open_session
              "assistant" "Monday to Friday, 9 AM - 6 PM EST." 20;
    mkMessage "10000000-0000-4000-8000-000000000003" open_session
              "user" "Do you integrate with Shopify?" 30;
    mkMessage "10000000-0000-4000-8000-000000000004" open_session
              "assistant" "Yes, for order lookups." 40;
    mkMessage "10000000-0000-4000-8000-000000000005" open_session
              "user" "How much is the Growth Plan?" 50;
    mkMessage "10000000-0000-4000-8000-000000000006" open_session
              "assistant" "The Growth Plan is $149/mo." 60 ].

Definition empty_world : World := mkWorld [] [] [].

Definition seeded_world : World :=
  mkWorld [mkSession open_session 5] seeded_messages [].

(** The reply to a request of another tab on the same session, committed
    after this request's append and before its read. *)
Definition late_reply : Message :=
  mkMessage "20000000-0000-4000-8000-000000000001" open_session
            "assistant" "There is a 14-day free trial." 1002.

Definition racing_env : Env :=
  mkEnv pg_uuid_in sample_uuid sample_now (fun _ => None)
        (fun _ => invalid_uuid_error) [late_reply]
        (fun _ _ => Returned sample_reply).

(** A database that loses the insert of line 49. *)
Definition flaky_env : Env :=
  mkEnv pg_uuid_in sample_uuid sample_now
        (fun at_ => match at_ with
                    | InsertSessionWithId =>
                        Some (mkError (Some "Connection terminated") None None)
                    | _ => None
                    end)
        (fun _ => invalid_uuid_error) []
        (fun _ _ => Thrown quota_error).

Definition post (message_ sessionId_ : option string) : NextRequest :=
  mkRequest (Returned (mkChatRequest message_ sessionId_)) None.

Definition get (sessionId_ : option string) : NextRequest :=
  mkRequest (Thrown no_body_error) sessionId_.

(** Two rows of one session with the same [createdAt]. *)
Definition tied_world : World :=
  mkWorld [mkSession open_session 5]
          [ mkMessage "10000000-0000-4000-8000-000000000001" open_session
                      "user" "What are your hours?" 10;
            mkMessage "10000000-0000-4000-8000-000000000002" open_session
                      "assistant" "Monday to Friday, 9 AM - 6 PM EST." 10 ]
          [].


(** A database that loses the insert of the user message, and one that
    loses the insert of the reply. *)
Definition timeout_error : JsError :=
  mkError (Some "Connection terminated due to connection timeout") None None.

Definition lossy_env : Env :=
  mkEnv pg_uuid_in sample_uuid sample_now
        (fun at_ => match at_ with
                    | InsertUserMessage => Some timeout_error
                    | _ => None
                    end)
        (fun _ => invalid_uuid_error) []
        (fun _ _ => Returned sample_reply).

Definition forgetful_env : Env :=
  mkEnv pg_uuid_in sample_uuid sample_now
        (fun at_ => match at_ with
                    | InsertAssistantMessage => Some timeout_error
                    | _ => None
                    end)
        (fun _ => invalid_uuid_error) []
        (fun _ _ => Returned sample_reply).

Definition unknown_session : string := "bbbbbbbb-bbbb-4bbb-8bbb-bbbbbbbbbbbb".

(** The [message] of the body of a request, when the body parses. *)
Definition message_of_request (req : NextRequest) : option string :=
  match json req with
  | Returned request => message request
  | Thrown _ => None
  end.

(* ================================================================== *)
(** * The constraints of [lib/schema.ts], as properties of a world *)

(** [sessions.id] is a primary key. *)
Definition sessions_unique (w : World) : Prop :=
  NoDup (map sess_id (sessions w)).

(** [messages.id] is a primary key. *)
Definition messages_unique (w : World) : Prop :=
  NoDup (map msg_id (messages w)).

(** [messages.session_id] references [sessions.id]. *)
Definition messages_reference_sessions (w : World) : Prop :=
  forall m, In m (messages w) ->
            In (msg_sessionId m) (map sess_id (sessions w)).

(** The lower-case form of a string of one-byte characters. *)
Fixpoint ascii_lower (s : string) : string :=
  match s with
  | EmptyString => EmptyString
  | String c rest => String (to_lower c) (ascii_lower rest)
  end.

(** The text of the first rule: quota and billing. *)
Definition mentions_quota (s : string) : Prop :=
  occurs_in "quota" s \/ occurs_in "exhausted" s \/
  occurs_in "billing" s \/ occurs_in "insufficient" s.

(** The text of the second rule: credentials. *)
Definition mentions_credentials (s : string) : Prop :=
  occurs_in "api_key" s \/ occurs_in "api key" s \/
  occurs_in "invalid key" s \/ occurs_in "unauthorized" s \/
  occurs_in "authentication" s.

(** The text of the third rule: rate limits. *)
Definition mentions_rate (s : string) : Prop :=
  occurs_in "rate" s \/ occurs_in "limit" s \/ occurs_in "too many" s.

(* ================================================================== *)
(** * The chat page: what the input box lets through

    The handlers [handleInputChange] and [handleSend] of the page
    component, up to the call of [fetch], and the [disabled] attribute of
    the send button.  The other copy of the page differs in the texts of
    the banners only. *)

(** A JavaScript string as its UTF-16 code units; [.length] counts them. *)
Definition JsString : Type := list N.

(** The code units [String.prototype.trim] removes: the white space and
    line terminators of ECMAScript. *)
Definition is_white_space (c : N) : bool :=
  ((9 <=? c) && (c <=? 13) || (c =? 32) || (c =? 160) || (c =? 5760)
   || (8192 <=? c) && (c <=? 8202) || (c =? 8232) || (c =? 8233)
   || (c =? 8239) || (c =? 8287) || (c =? 12288) || (c =? 65279))%N.

Fixpoint trimStart (s : JsString) : JsString :=
  match s with
  | [] => []
  | c :: rest => if is_white_space c then trimStart rest else s
  end.

Definition trimEnd (s : JsString) : JsString := rev (trimStart (rev s)).

Definition trim (s : JsString) : JsString := trimEnd (trimStart s).

(** The state [{ show, msg }] of the error banner. *)
Record ErrorConfig : Type := mkErrorConfig {
  show : bool;
  msg : string
}.

(** The state the two handlers read and set. *)
Record Page : Type := mkPage {
  inputValue : JsString;
  isLoading : bool;
  errorConfig : ErrorConfig
}.

(** [handleInputChange], lines 71-79, for [e.target.value = val]. *)
Definition handleInputChange (val : JsString) (page : Page) : Page :=
  mkPage val (isLoading page)
         (if (500 <? length val)%nat then
            mkErrorConfig true "Message too long (max 500 chars)"
          else if show (errorConfig page) then mkErrorConfig false ""
          else errorConfig page).

(** [handleSend], lines 81-98: the state once the handler has reached
    [fetch] or returned before it, and the [message] of the request body
    when a request is made. *)
Definition handleSend (page : Page) : Page * option JsString :=
  if match trim (inputValue page) with [] => true | _ => false end
     || isLoading page
  then (page, None)
  else if (500 <? length (inputValue page))%nat then
    (mkPage (inputValue page) (isLoading page)
            (mkErrorConfig true "Please shorten your message."), None)
  else
    let userText := trim (inputValue page) in
    (mkPage [] true (errorConfig page), Some userText).

(** The [disabled] attribute of the send button, line 229. *)
Definition send_disabled (page : Page) : bool :=
  match trim (inputValue page) with [] => true | _ => false end
  || isLoading page
  || (500 <? length (inputValue page))%nat.

(** A page whose input is " hi ", with the banner of a failed request
    showing. *)
Definition sample_page : Page :=
  mkPage [32; 104; 105; 32]%N false
         (mkErrorConfig true "Failed to connect. Please try again.").

(* ================================================================== *)
(** * Substrings *)

Lemma prefix_append (p s : string) :
  String.prefix p s = true <-> exists after, s = p ++ after.
Proof.
  revert s. induction p as [|c p IH]; intros s.
  - split; [intros _; now exists s | intros _; now destruct s].
  - destruct s as [|d s]; simpl.
    + split; [discriminate | intros [after H]; discriminate].
    + destruct (Ascii.ascii_dec c d) as [->|ne].
      * rewrite IH. split; intros [after H]; exists after.
        -- now rewrite H.
        -- now inversion H.
      * split; [discriminate | intros [after H]; inversion H; congruence].
Qed.

Lemma includes_unfold (s pat : string) :
  includes s pat =
  if String.prefix pat s then true
  else match s with
       | EmptyString => false
       | String _ rest => includes rest pat
       end.
Proof. destruct s; reflexivity. Qed.

Lemma includes_occurs (s pat : string) :
  includes s pat = true <-> occurs_in pat s.
Proof.
  unfold occurs_in. induction s as [|c s IH]; rewrite includes_unfold.
  - destruct (String.prefix pat "") eqn:E.
    + apply prefix_append in E as [after E].
      split; [intros _; now exists "", after | reflexivity].
    + split; [discriminate|].
      intros [before [after H]].
      destruct before; simpl in H.
      * assert (String.prefix pat "" = true)
          by (apply prefix_append; now exists after).
        congruence.
      * discriminate.
  - destruct (String.prefix pat (String c s)) eqn:E.
    + apply prefix_append in E as [after E].
      split; [intros _; now exists "", after | reflexivity].
    + rewrite IH. split.
      * intros [before [after H]]. exists (String c before), after.
        simpl. now rewrite H.
      * intros [before [after H]]. destruct before; simpl in H.
        -- assert (String.prefix pat (String c s) = true)
             by (apply prefix_append; now exists after).
           congruence.
        -- inversion H. now exists before, after.
Qed.

Lemma message_includes_occurs (e : JsError) (pat : string) :
  message_includes e pat = true <->
  exists m, err_message e = Some m /\ occurs_in pat m.
Proof.
  unfold message_includes. destruct (err_message e) as [m|].
  - rewrite includes_occurs. split.
    + intros H. now exists m.
    + intros [m' [E H]]. now inversion E; subst.
  - split; [discriminate | intros [m [E _]]; discriminate].
Qed.

Lemma status_is_spec (e : JsError) (n : Z) :
  status_is e n = true <-> err_status e = Some n.
Proof.
  unfold status_is. destruct (err_status e) as [k|].
  - rewrite Z.eqb_eq. split; [now intros -> | now intros [= ->]].
  - split; discriminate.
Qed.

Lemma code_is_spec (e : JsError) (c : string) :
  code_is e c = true <-> err_code e = Some c.
Proof.
  unfold code_is. destruct (err_code e) as [k|].
  - rewrite String.eqb_eq. split; [now intros -> | now intros [= ->]].
  - split; discriminate.
Qed.

(* ================================================================== *)
(** * The error mapping *)

(** [classify] always answers one of four fixed pairs. *)
Lemma classify_range (e : JsError) :
  In (classify e)
     [(msg_config, 500); (msg_rate, 429); (msg_timeout, 504);
      (msg_generic, 500)].
Proof.
  unfold classify.
  destruct (message_includes e "API_KEY"); [simpl; auto|].
  destruct (message_includes e "RATE_LIMIT" || status_is e 429);
    [simpl; auto|].
  destruct (message_includes e "timeout" || code_is e "ETIMEDOUT");
    simpl; auto.
Qed.

(** C4, as the code has it: the configuration answer is the fixed
    configuration message with status 500, and it is given exactly for
    the errors whose message contains the text API_KEY in upper case.
    No other credential keyword and no status code selects it. *)
Theorem classify_config (e : JsError) :
  (exists m, err_message e = Some m /\ occurs_in "API_KEY" m) <->
  classify e = (msg_config, 500).
Proof.
  rewrite <- message_includes_occurs. unfold classify.
  destruct (message_includes e "API_KEY").
  - split; reflexivity.
  - split; [discriminate|].
    destruct (message_includes e "RATE_LIMIT" || status_is e 429);
      [discriminate|].
    destruct (message_includes e "timeout" || code_is e "ETIMEDOUT");
      discriminate.
Qed.

(** C4 as stated fails: an error with message "unauthorized" and status
    401 gets the generic answer with status 500, not a configuration
    error with status 503. *)
Lemma classify_unauthorized_401 :
  classify (mkError (Some "unauthorized") (Some 401) None)
  = (msg_generic, 500)
  /\ classify (mkError (Some "invalid api_key") (Some 403) None)
     = (msg_generic, 500)
  /\ forall e, snd (classify e) <> 503.
Proof.
  split; [reflexivity|]. split; [reflexivity|].
  intros e. pose proof (classify_range e) as H. simpl in H.
  destruct H as [H|[H|[H|[H|[]]]]]; rewrite <- H; simpl; lia.
Qed.

(** C5, as the code has it: [classify] is the first match in the ordered
    rule list [rules], with the generic answer as default; the rules test
    the message for an exact (case-sensitive) occurrence of a keyword and
    the status and code for equality.  An error that does not mention
    API_KEY and that mentions RATE_LIMIT or has status 429 gets status 429
    with the fixed rate-limit message. *)
Theorem classify_first_match (e : JsError) :
  classify e = first_match rules (msg_generic, 500) e
  /\ ((forall m, err_message e = Some m -> ~ occurs_in "API_KEY" m) ->
      (exists m, err_message e = Some m /\ occurs_in "RATE_LIMIT" m)
      \/ err_status e = Some 429 ->
      classify e = (msg_rate, 429)).
Proof.
  split.
  - unfold classify, rules, first_match.
    destruct (message_includes e "API_KEY"); [reflexivity|].
    destruct (message_includes e "RATE_LIMIT" || status_is e 429);
      [reflexivity|].
    destruct (message_includes e "timeout" || code_is e "ETIMEDOUT");
      reflexivity.
  - intros Hno Hrate. unfold classify.
    destruct (message_includes e "API_KEY") eqn:Ek.
    + apply message_includes_occurs in Ek as [m [Em Ho]].
      exfalso. exact (Hno m Em Ho).
    + assert (message_includes e "RATE_LIMIT" || status_is e 429 = true)
        as ->; [|reflexivity].
      apply orb_true_iff. destruct Hrate as [H|H].
      * left. now apply message_includes_occurs.
      * right. now apply status_is_spec.
Qed.

Lemma classify_first_match_witness :
  classify (mkError (Some "429 RATE_LIMIT_EXCEEDED") None None)
  = (msg_rate, 429).
Proof.
  apply (classify_first_match
           (mkError (Some "429 RATE_LIMIT_EXCEEDED") None None)).
  - intros m [= <-] H. apply includes_occurs in H. discriminate.
  - left. exists "429 RATE_LIMIT_EXCEEDED". split; [reflexivity|].
    apply includes_occurs. reflexivity.
Defined.

(** C5 as stated fails: the match is case-sensitive, so an error whose
    message is "rate limit exceeded" gets the generic answer with status
    500. *)
Lemma classify_rate_limit_exceeded :
  occurs_in "rate limit exceeded" "rate limit exceeded"
  /\ classify (mkError (Some "rate limit exceeded") None None)
     = (msg_generic, 500).
Proof.
  split; [now exists "", "" | reflexivity].
Qed.

(* ================================================================== *)
(** * [ORDER BY] *)

Section Ordering.
Variable before : Message -> Message -> bool.
Variable R : Message -> Message -> Prop.
Hypothesis before_R : forall x y, before x y = true -> R x y.
Hypothesis not_before_R : forall x y, before x y = false -> R y x.
Hypothesis R_trans : forall x y z, R x y -> R y z -> R x z.

Lemma insert_row_perm (x : Message) (l : list Message) :
  Permutation (insert_row before x l) (x :: l).
Proof.
  induction l as [|y l IH]; simpl.
  - apply Permutation_refl.
  - destruct (before x y).
    + apply Permutation_refl.
    + eapply perm_trans; [apply perm_skip, IH | apply perm_swap].
Qed.

Lemma order_by_perm (l : list Message) : Permutation (order_by before l) l.
Proof.
  induction l as [|x l IH]; simpl.
  - apply perm_nil.
  - eapply perm_trans; [apply insert_row_perm | now apply perm_skip].
Qed.

Lemma insert_row_sorted (x : Message) (l : list Message) :
  StronglySorted R l -> StronglySorted R (insert_row before x l).
Proof.
  induction 1 as [|y l Hs IH Hy]; simpl.
  - repeat constructor.
  - destruct (before x y) eqn:E.
    + constructor; [now constructor|].
      constructor; [now apply before_R|].
      eapply Forall_impl; [|exact Hy].
      intros z Hz. eapply R_trans; [apply before_R, E | exact Hz].
    + constructor; [exact IH|].
      eapply Permutation_Forall;
        [apply Permutation_sym, insert_row_perm|].
      constructor; [now apply not_before_R | exact Hy].
Qed.

Lemma order_by_sorted (l : list Message) :
  StronglySorted R (order_by before l).
Proof.
  induction l as [|x l IH]; simpl.
  - constructor.
  - now apply insert_row_sorted.
Qed.
End Ordering.

Lemma order_by_desc_newest_first (l : list Message) :
  newest_first (order_by desc l).
Proof.
  apply order_by_sorted; unfold desc; intros.
  - now apply Z.leb_le.
  - apply Z.leb_gt in H. lia.
  - lia.
Qed.

Lemma order_by_asc_oldest_first (l : list Message) :
  oldest_first (order_by asc l).
Proof.
  apply order_by_sorted; unfold asc; intros.
  - now apply Z.leb_le.
  - apply Z.leb_gt in H. lia.
  - lia.
Qed.

Lemma StronglySorted_app_inv {A : Type} (R : A -> A -> Prop) (l1 l2 : list A) :
  StronglySorted R (l1 ++ l2) ->
  StronglySorted R l1 /\ StronglySorted R l2 /\
  forall x y, In x l1 -> In y l2 -> R x y.
Proof.
  induction l1 as [|a l1 IH]; simpl; intros H.
  - repeat split; [constructor | exact H | intros x y []].
  - apply StronglySorted_inv in H as [Hs Ha].
    destruct (IH Hs) as [H1 [H2 H12]].
    apply Forall_app in Ha as [Ha1 Ha2].
    repeat split; [now constructor | exact H2 |].
    intros x y [<-|Hx] Hy.
    + rewrite Forall_forall in Ha2. now apply Ha2.
    + now apply H12.
Qed.

Lemma StronglySorted_snoc {A : Type} (R : A -> A -> Prop) (l : list A) (a : A) :
  StronglySorted R l -> Forall (fun x => R x a) l ->
  StronglySorted R (l ++ [a]).
Proof.
  induction 1 as [|b l Hs IH Hb]; simpl; intros Ha.
  - repeat constructor.
  - inversion Ha; subst. constructor; [now apply IH|].
    apply Forall_app. split; [exact Hb | now repeat constructor].
Qed.

Lemma StronglySorted_rev {A : Type} (R : A -> A -> Prop) (l : list A) :
  StronglySorted R l -> StronglySorted (fun x y => R y x) (rev l).
Proof.
  induction 1 as [|a l Hs IH Ha]; simpl.
  - constructor.
  - apply StronglySorted_snoc; [exact IH|].
    apply Forall_rev. exact Ha.
Qed.

(** The first [n] rows of a descending order are the [n] most recent. *)
Lemma firstn_order_by_desc_most_recent (n : nat) (rows : list Message) :
  most_recent n rows (firstn n (order_by desc rows)).
Proof.
  pose proof (order_by_desc_newest_first rows) as Hs.
  pose proof (order_by_perm desc rows) as Hp.
  rewrite <- (firstn_skipn n (order_by desc rows)) in Hs.
  apply StronglySorted_app_inv in Hs as [H1 [_ H12]].
  split; [exact H1|]. split.
  - rewrite length_firstn. now rewrite (Permutation_length Hp).
  - exists (skipn n (order_by desc rows)). split.
    + rewrite firstn_skipn. now apply Permutation_sym.
    + intros x y Hx Hy. now apply H12.
Qed.

(** Two lists with the same rows, both in strictly increasing order of
    [createdAt], are equal. *)
Lemma strictly_sorted_unique (l1 l2 : list Message) :
  StronglySorted (fun x y => msg_createdAt x < msg_createdAt y) l1 ->
  StronglySorted (fun x y => msg_createdAt x < msg_createdAt y) l2 ->
  Permutation l1 l2 -> l1 = l2.
Proof.
  intros H1. revert l2. induction H1 as [|a l1 Hs IH Ha]; intros l2 H2 Hp.
  - apply Permutation_nil in Hp. now subst.
  - destruct l2 as [|b l2].
    + apply Permutation_sym, Permutation_nil in Hp. discriminate.
    + apply StronglySorted_inv in H2 as [H2 Hb].
      assert (a = b) as <-.
      { assert (In a (b :: l2)) as Ia
            by (eapply Permutation_in; [exact Hp | now left]).
        assert (In b (a :: l1)) as Ib
            by (eapply Permutation_in;
                [apply Permutation_sym; exact Hp | now left]).
        destruct Ia as [->|Ia]; [reflexivity|].
        destruct Ib as [->|Ib]; [reflexivity|].
        rewrite Forall_forall in Ha, Hb.
        specialize (Ha _ Ib). specialize (Hb _ Ia). lia. }
      f_equal. apply IH; [exact H2|].
      now apply Permutation_cons_inv in Hp.
Qed.

Lemma sorted_distinct_strict (l : list Message) :
  oldest_first l -> distinct_createdAt l ->
  StronglySorted (fun x y => msg_createdAt x < msg_createdAt y) l.
Proof.
  unfold oldest_first, distinct_createdAt.
  induction 1 as [|a l Hs IH Ha]; simpl; intros Hd.
  - constructor.
  - inversion Hd as [|? ? Hn Hd']; subst.
    constructor; [now apply IH|].
    rewrite Forall_forall in *. intros y Hy.
    specialize (Ha y Hy).
    assert (msg_createdAt a <> msg_createdAt y).
    { intros E. apply Hn. rewrite E. now apply in_map. }
    lia.
Qed.

(** With distinct timestamps the ascending order is the descending one
    read backwards, and a limit takes its first rows. *)
Lemma order_by_asc_rev_desc (l : list Message) :
  distinct_createdAt l ->
  order_by asc l = rev (order_by desc l).
Proof.
  intros Hd.
  assert (forall l', Permutation l' l -> distinct_createdAt l') as Hd'.
  { intros l' Hp. unfold distinct_createdAt in *.
    eapply Permutation_NoDup; [|exact Hd].
    apply Permutation_map, Permutation_sym, Hp. }
  apply strictly_sorted_unique.
  - apply sorted_distinct_strict; [apply order_by_asc_oldest_first|].
    apply Hd', order_by_perm.
  - apply sorted_distinct_strict.
    + apply (StronglySorted_rev _ _ (order_by_desc_newest_first l)).
    + apply Hd'. eapply perm_trans;
        [apply Permutation_sym, Permutation_rev | apply order_by_perm].
  - eapply perm_trans; [apply order_by_perm|].
    eapply perm_trans; [|apply Permutation_rev].
    apply Permutation_sym, order_by_perm.
Qed.

(* ================================================================== *)
(** * What a statement does to the world *)

Lemma truthy_spec (v : option string) :
  truthy v = true <-> exists s, v = Some s /\ s <> "".
Proof.
  destruct v as [s|]; simpl.
  - rewrite negb_true_iff, String.eqb_neq. split.
    + intros H. now exists s.
    + now intros [s' [[= <-] H]].
  - split; [discriminate | now intros [s [H _]]].
Qed.

Lemma has_id_In (u : string) (ids : list string) :
  has_id u ids = true <-> In u ids.
Proof.
  unfold has_id. rewrite existsb_exists. split.
  - intros [x [Hx E]]. apply String.eqb_eq in E. now subst.
  - intros H. exists u. split; [exact H | apply String.eqb_refl].
Qed.

Lemma insert_sessions_thrown env at_ id w e w' :
  insert_sessions env at_ id w = (Thrown e, w') -> w' = w.
Proof.
  unfold insert_sessions, statement.
  destruct (fault env at_); [now intros [= _ <-]|].
  destruct (match id with
            | Some s => uuid_in env s
            | None => Some (gen_random_uuid env at_)
            end) as [u|]; [|now intros [= _ <-]].
  destruct (has_id u (map sess_id (sessions w)));
    [now intros [= _ <-] | discriminate].
Qed.

Lemma insert_sessions_returned env at_ id w row w' :
  insert_sessions env at_ id w = (Returned row, w') ->
  fault env at_ = None /\
  match id with
  | Some s => uuid_in env s = Some (sess_id row)
  | None => sess_id row = gen_random_uuid env at_
  end /\
  sess_createdAt row = now env at_ /\
  ~ In (sess_id row) (map sess_id (sessions w)) /\
  w' = mkWorld (sessions w ++ [row]) (messages w) (provider_calls w).
Proof.
  unfold insert_sessions, statement.
  destruct (fault env at_); [discriminate|].
  destruct (match id with
            | Some s => uuid_in env s
            | None => Some (gen_random_uuid env at_)
            end) as [u|] eqn:Eu; [|discriminate].
  destruct (has_id u (map sess_id (sessions w))) eqn:Eh; [discriminate|].
  intros [= <- <-]. simpl. repeat split.
  - destruct id; [exact Eu | now inversion Eu].
  - intros Hin. apply has_id_In in Hin. congruence.
Qed.

Lemma select_sessions_world env at_ id w o w' :
  select_sessions env at_ id w = (o, w') -> w' = w.
Proof.
  unfold select_sessions, statement.
  destruct (fault env at_); [now intros [= _ <-]|].
  destruct (uuid_in env id); now intros [= _ <-].
Qed.

Lemma select_sessions_returned env at_ id w l w' :
  select_sessions env at_ id w = (Returned l, w') ->
  fault env at_ = None /\
  exists u, uuid_in env id = Some u /\
    l = firstn 1 (filter (fun s => String.eqb (sess_id s) u) (sessions w)).
Proof.
  unfold select_sessions, statement.
  destruct (fault env at_); [discriminate|].
  destruct (uuid_in env id) as [u|]; [|discriminate].
  intros [= <- _]. split; [reflexivity|]. now exists u.
Qed.

(** The lookup finds a row exactly when the table has the id. *)
Lemma find_session_length (u : string) (l : list Session) :
  (length (firstn 1 (filter (fun s => String.eqb (sess_id s) u) l)) =? 0)%nat
  = negb (has_id u (map sess_id l)).
Proof.
  induction l as [|s l IH]; simpl; [reflexivity|].
  rewrite (String.eqb_sym u (sess_id s)).
  destruct (String.eqb (sess_id s) u); simpl; [reflexivity|].
  exact IH.
Qed.

Lemma insert_messages_thrown env at_ sid r c w e w' :
  insert_messages env at_ sid r c w = (Thrown e, w') -> w' = w.
Proof.
  unfold insert_messages, statement.
  destruct (fault env at_); [now intros [= _ <-]|].
  destruct (uuid_in env sid) as [u|]; [|now intros [= _ <-]].
  destruct (negb (has_id u (map sess_id (sessions w))));
    [now intros [= _ <-]|].
  destruct (has_id (gen_random_uuid env at_) (map msg_id (messages w)));
    [now intros [= _ <-] | discriminate].
Qed.

Lemma insert_messages_returned env at_ sid r c w row w' :
  insert_messages env at_ sid r c w = (Returned row, w') ->
  fault env at_ = None /\
  uuid_in env sid = Some (msg_sessionId row) /\
  In (msg_sessionId row) (map sess_id (sessions w)) /\
  ~ In (msg_id row) (map msg_id (messages w)) /\
  row = mkMessage (gen_random_uuid env at_) (msg_sessionId row) r c
                  (now env at_) /\
  w' = mkWorld (sessions w) (messages w ++ [row]) (provider_calls w).
Proof.
  unfold insert_messages, statement.
  destruct (fault env at_); [discriminate|].
  destruct (uuid_in env sid) as [u|]; [|discriminate].
  destruct (has_id u (map sess_id (sessions w))) eqn:Eh; [|discriminate].
  simpl.
  destruct (has_id (gen_random_uuid env at_) (map msg_id (messages w)))
    eqn:Em; [discriminate|].
  intros [= <- <-]. simpl. repeat split.
  - now apply has_id_In.
  - intros Hin. apply has_id_In in Hin. congruence.
Qed.

Lemma select_messages_world env at_ id order limit w o w' :
  select_messages env at_ id order limit w = (o, w') -> w' = w.
Proof.
  unfold select_messages, statement.
  destruct (fault env at_); [now intros [= _ <-]|].
  destruct (uuid_in env id); now intros [= _ <-].
Qed.

Lemma select_messages_returned env at_ id order limit w l w' :
  select_messages env at_ id order limit w = (Returned l, w') ->
  fault env at_ = None /\
  exists u, uuid_in env id = Some u /\
    l = match limit with
        | Some n => firstn n (order_by order (of_session u (messages w)))
        | None => order_by order (of_session u (messages w))
        end.
Proof.
  unfold select_messages, statement.
  destruct (fault env at_); [discriminate|].
  destruct (uuid_in env id) as [u|]; [|discriminate].
  intros [= <- _]. split; [reflexivity|]. now exists u.
Qed.

(* ================================================================== *)
(** * Session resolution (lines 39-55) *)

(** A resolution that throws has written nothing. *)
Lemma currentSessionId_thrown env sid w e w' :
  currentSessionId env sid w = (Thrown e, w') -> w' = w.
Proof.
  assert (forall at_, (newSession <- insert_sessions env at_ None ;;
                       ret (sess_id newSession)) w = (Thrown e, w') ->
                      w' = w) as Hnew.
  { intros at_ H. unfold bind in H.
    destruct (insert_sessions env at_ None w) as [[row|e'] w1] eqn:E;
      [discriminate|].
    inversion H; subst. eapply insert_sessions_thrown, E. }
  unfold currentSessionId. destruct sid as [s|]; [|apply Hnew].
  destruct (truthy (Some s)); [|apply Hnew].
  intros H. unfold bind at 1 in H.
  destruct (select_sessions env FindSession s w) as [[l|e'] w1] eqn:E.
  - apply select_sessions_world in E as ->.
    destruct (length l =? 0)%nat; [|discriminate].
    unfold try_catch in H. unfold bind at 1 in H.
    destruct (insert_sessions env InsertSessionWithId (Some s) w)
      as [[row|e'] w1] eqn:E1; [discriminate|].
    apply insert_sessions_thrown in E1 as ->. now apply Hnew in H.
  - apply select_sessions_world in E as ->. now inversion H.
Qed.

(** The three ways a resolution returns: a session is created because no
    id came with the request; the id supplied is found and kept; the id
    supplied is unknown and a session is created with it, or, when that
    insert throws, with an id of the database's own. *)
Lemma currentSessionId_returned env sid w current w1 :
  currentSessionId env sid w = (Returned current, w1) ->
  messages w1 = messages w /\ provider_calls w1 = provider_calls w /\
  ((truthy sid = false /\
    current = gen_random_uuid env InsertSession /\
    ~ In current (map sess_id (sessions w)) /\
    sessions w1 = (sessions w ++ [mkSession current (now env InsertSession)])%list)
   \/
   exists supplied u,
     sid = Some supplied /\ supplied <> "" /\
     uuid_in env supplied = Some u /\
     ((In u (map sess_id (sessions w)) /\ current = supplied /\ w1 = w)
      \/
      (~ In u (map sess_id (sessions w)) /\ current = supplied /\
       sessions w1
         = (sessions w ++ [mkSession u (now env InsertSessionWithId)])%list)
      \/
      (~ In u (map sess_id (sessions w)) /\
       fault env InsertSessionWithId <> None /\
       current = gen_random_uuid env InsertSessionAgain /\
       ~ In current (map sess_id (sessions w)) /\
       sessions w1 =
         (sessions w ++ [mkSession current (now env InsertSessionAgain)])%list))).
Proof.
  assert (forall at_, (newSession <- insert_sessions env at_ None ;;
                       ret (sess_id newSession)) w = (Returned current, w1) ->
            messages w1 = messages w /\ provider_calls w1 = provider_calls w /\
            current = gen_random_uuid env at_ /\
            ~ In current (map sess_id (sessions w)) /\
            sessions w1 = (sessions w ++ [mkSession current (now env at_)])%list)
    as Hnew.
  { intros at_ H. unfold bind in H.
    destruct (insert_sessions env at_ None w) as [[row|e'] w2] eqn:E;
      [|discriminate].
    inversion H; subst.
    apply insert_sessions_returned in E as [_ [Eid [Et [Hn ->]]]].
    simpl. destruct row as [i t]. simpl in *. subst. auto. }
  unfold currentSessionId. destruct sid as [s|].
  2:{ intros H. apply Hnew in H as [Hm [Hc H]]. auto. }
  destruct (truthy (Some s)) eqn:Et.
  2:{ intros H. apply Hnew in H as [Hm [Hc H]]. auto. }
  intros H. unfold bind at 1 in H.
  destruct (select_sessions env FindSession s w) as [[l|e'] w2] eqn:E;
    [|discriminate].
  pose proof (select_sessions_world _ _ _ _ _ _ E) as ->.
  apply select_sessions_returned in E as [_ [u [Eu ->]]].
  rewrite find_session_length in H.
  apply truthy_spec in Et as [s' [[= <-] Hs]].
  destruct (has_id u (map sess_id (sessions w))) eqn:Eh; simpl in H.
  - inversion H; subst. repeat split.
    right. exists current, u. repeat split; auto.
    left. repeat split. now apply has_id_In.
  - assert (~ In u (map sess_id (sessions w))) as Hn
        by (intros Hin; apply has_id_In in Hin; congruence).
    unfold try_catch in H. unfold bind at 1 in H.
    destruct (insert_sessions env InsertSessionWithId (Some s) w)
      as [[row|e'] w2] eqn:E1.
    + inversion H; subst.
      apply insert_sessions_returned in E1 as [_ [Eid [Ect [_ ->]]]].
      simpl. repeat split.
      right. exists current, u. repeat split; auto.
      right. left. repeat split; auto.
      destruct row as [i t]. simpl in *. congruence.
    + pose proof (insert_sessions_thrown _ _ _ _ _ _ E1) as ->.
      apply Hnew in H as [Hm [Hc [Hcur [Hfresh Hsess]]]].
      repeat split; auto.
      right. exists s, u. repeat split; auto.
      right. right. repeat split; auto.
      unfold insert_sessions, statement in E1.
      intros Hf. rewrite Hf, Eu, Eh in E1. discriminate.
Qed.

(** Resolution keeps every session, and an id other than the one that
    came with the request is the id of a session it created. *)
Lemma currentSessionId_sessions env sid w current w1 :
  currentSessionId env sid w = (Returned current, w1) ->
  (forall s, In s (sessions w) -> In s (sessions w1)) /\
  (sid <> Some current ->
   ~ In current (map sess_id (sessions w)) /\
   In current (map sess_id (sessions w1))).
Proof.
  intros H. apply currentSessionId_returned in H as [_ [_ H]].
  assert (forall row, sessions w1 = (sessions w ++ [row])%list ->
                      forall s, In s (sessions w) -> In s (sessions w1))
    as Hkeep by (intros row -> s Hs; apply in_or_app; now left).
  assert (forall t, sessions w1 = (sessions w ++ [mkSession current t])%list ->
                    In current (map sess_id (sessions w1)))
    as Hnew by (intros t ->; rewrite map_app; apply in_or_app; right;
                now left).
  destruct H as [[_ [_ [Hn Hs]]] | [supplied [u [Hsid [_ [_ H]]]]]].
  - split; [eapply Hkeep, Hs|]. intros _. split; [exact Hn|].
    eapply Hnew, Hs.
  - destruct H as [[_ [Hc Hw]] | [[_ [Hc Hs]] | [_ [_ [_ [Hn Hs]]]]]].
    + subst. split; [auto | congruence].
    + subst. split; [eapply Hkeep, Hs | congruence].
    + split; [eapply Hkeep, Hs|]. intros _. split; [exact Hn|].
      eapply Hnew, Hs.
Qed.

(* ================================================================== *)
(** * Runs of [POST] *)

Lemma on_error_eq (e : JsError) (w : World) :
  on_error e w =
  (Returned (NextResponse_json [("error", JString (fst (classify e)))]
                               (snd (classify e))), w).
Proof. unfold on_error. now destruct (classify e). Qed.

(** What [reaches_provider] says about the world at the read. *)
Lemma reaches_provider_world env req w m current row previous at_read :
  reaches_provider env req w m current row previous at_read ->
  exists request u w1,
    json req = Returned request /\ message request = Some m /\ m <> "" /\
    currentSessionId env (sessionId request) w = (Returned current, w1) /\
    uuid_in env current = Some u /\
    In u (map sess_id (sessions w1)) /\
    row = mkMessage (gen_random_uuid env InsertUserMessage) u "user" m
                    (now env InsertUserMessage) /\
    sessions at_read = sessions w1 /\
    messages at_read = (messages w ++ [row] ++ concurrent env)%list /\
    provider_calls at_read = provider_calls w /\
    previous = firstn 7 (order_by desc (of_session u (messages at_read))).
Proof.
  intros [request [w1 [w2 [Hj [Hm [Hne [Hc [Hi [Ho Hp]]]]]]]]].
  apply insert_messages_returned in Hi as [_ [Hu [Hin [_ [Hrow ->]]]]].
  unfold others_commit in Ho. inversion Ho; subst at_read; clear Ho.
  apply select_messages_returned in Hp as [_ [u [Hu' Hprev]]].
  simpl in Hprev.
  assert (u = msg_sessionId row) as -> by congruence.
  pose proof (currentSessionId_returned _ _ _ _ _ Hc) as [Hms [Hcs _]].
  exists request, (msg_sessionId row), w1. simpl.
  repeat split; auto.
  - now rewrite Hms, <- app_assoc.
Qed.

(** Once the window is read, the rest of [POST] is [complete]. *)
Lemma POST_reaches env req w m current row previous at_read :
  reaches_provider env req w m current row previous at_read ->
  POST env req w = complete env current m previous at_read.
Proof.
  intros [request [w1 [w2 [Hj [Hm [Hne [Hc [Hi [Ho Hp]]]]]]]]].
  unfold POST, complete, try_catch.
  unfold bind at 1, await. rewrite Hj, Hm.
  assert (truthy (Some m) = true) as ->
      by (apply truthy_spec; now exists m).
  unfold bind at 1. rewrite Hc.
  unfold bind at 1. rewrite Hi.
  unfold bind at 1. rewrite Ho.
  unfold bind at 1. rewrite Hp.
  reflexivity.
Qed.

(** [complete] calls the provider once, with the window as history and
    the message as the turn to answer. *)
Lemma complete_calls env current m previous w :
  provider_calls (snd (complete env current m previous w))
  = (provider_calls w ++ [(history previous m, m)])%list.
Proof.
  unfold complete, try_catch, sendMessage. unfold bind at 1.
  destruct (generate env (history previous m) m) as [reply|e].
  - unfold bind at 1.
    match goal with
    | |- context [insert_messages ?a1 ?a2 ?a3 ?a4 ?a5 ?a6] =>
        destruct (insert_messages a1 a2 a3 a4 a5 a6) as [[row|e] w'] eqn:E
    end.
    + apply insert_messages_returned in E as [_ [_ [_ [_ [_ ->]]]]].
      reflexivity.
    + apply insert_messages_thrown in E as ->.
      rewrite on_error_eq. reflexivity.
  - rewrite on_error_eq. reflexivity.
Qed.

(** A run of [POST] either leaves the provider alone or reaches it. *)
Lemma POST_cases env req w :
  provider_calls (snd (POST env req w)) = provider_calls w
  \/ exists m current row previous at_read,
       reaches_provider env req w m current row previous at_read.
Proof.
  unfold POST, try_catch. unfold bind at 1, await.
  destruct (json req) as [request|e] eqn:Hj;
    [|left; now rewrite on_error_eq].
  destruct (message request) as [m|] eqn:Hm; [|now left].
  destruct (truthy (Some m)) eqn:Ht; [|now left].
  apply truthy_spec in Ht as [m' [[= <-] Hne]].
  unfold bind at 1.
  destruct (currentSessionId env (sessionId request) w)
    as [[current|e] w1] eqn:Hc.
  2:{ left. apply currentSessionId_thrown in Hc as ->.
      now rewrite on_error_eq. }
  pose proof (currentSessionId_returned _ _ _ _ _ Hc) as [_ [Hcalls _]].
  unfold bind at 1.
  destruct (insert_messages env InsertUserMessage current "user" m w1)
    as [[row|e] w2] eqn:Hi.
  2:{ left. apply insert_messages_thrown in Hi as ->.
      now rewrite on_error_eq. }
  unfold bind at 1.
  destruct (others_commit env w2) as [[[]|e] w3] eqn:Ho;
    [|unfold others_commit in Ho; discriminate].
  unfold bind at 1.
  destruct (previousMessages env current w3) as [[previous|e] w4] eqn:Hp;
    pose proof Hp as Hw; unfold previousMessages in Hw;
    apply select_messages_world in Hw; subst w4.
  - right.
    exists m, current, row, previous, w3.
    exists request, w1, w2. auto 10.
  - left. rewrite on_error_eq. simpl.
    unfold others_commit in Ho. inversion Ho; subst w3. simpl.
    apply insert_messages_returned in Hi as [_ [_ [_ [_ [_ ->]]]]].
    simpl. exact Hcalls.
Qed.

Lemma app_one_neq {A : Type} (l : list A) (x : A) : (l ++ [x])%list <> l.
Proof.
  intros H. apply (f_equal (@length A)) in H.
  rewrite length_app in H. simpl in H. lia.
Qed.

(** If the provider was called with history [h] and message [m], the run
    reached it with [m] as the request's message and [h] as the window
    built from the rows read. *)
Lemma POST_called env req w r w' h m :
  POST env req w = (r, w') ->
  provider_calls w' = (provider_calls w ++ [(h, m)])%list ->
  exists current row previous at_read,
    reaches_provider env req w m current row previous at_read /\
    h = history previous m /\
    (r, w') = complete env current m previous at_read.
Proof.
  intros HP Hcalls.
  destruct (POST_cases env req w) as [Hno|[m' [cur [row [prev [wr Hr]]]]]].
  - rewrite HP in Hno. simpl in Hno. rewrite Hno in Hcalls.
    symmetry in Hcalls. now apply app_one_neq in Hcalls.
  - pose proof (POST_reaches _ _ _ _ _ _ _ _ Hr) as HP'.
    pose proof (complete_calls env cur m' prev wr) as Hc.
    rewrite <- HP', HP in Hc. simpl in Hc.
    destruct (reaches_provider_world _ _ _ _ _ _ _ _ Hr)
      as [_ [_ [_ [_ [_ [_ [_ [_ [_ [_ [_ [_ [Hcw _]]]]]]]]]]]]].
    rewrite Hcw, Hcalls in Hc. apply app_inj_tail in Hc as [_ [= -> ->]].
    exists cur, row, prev, wr. repeat split; auto.
    now rewrite <- HP', HP.
Qed.

(** [complete] ends in one of three ways. *)
Lemma complete_cases env current m previous w :
  let called := mkWorld (sessions w) (messages w)
                        (provider_calls w ++ [(history previous m, m)]) in
  match generate env (history previous m) m with
  | Thrown e => complete env current m previous w = on_error e called
  | Returned reply =>
      match insert_messages env InsertAssistantMessage current "assistant"
                            reply called with
      | (Returned _, w') =>
          complete env current m previous w =
          (Returned (NextResponse_json [("reply", JString reply);
                                        ("sessionId", JString current)] 200),
           w')
      | (Thrown e, _) => complete env current m previous w = on_error e called
      end
  end.
Proof.
  intros called. unfold complete, try_catch, sendMessage, bind.
  cbv beta. fold called.
  destruct (generate env (history previous m) m) as [reply|e];
    [|reflexivity].
  destruct (insert_messages env InsertAssistantMessage current "assistant"
                            reply called) as [[row|e] w'] eqn:E.
  - reflexivity.
  - now apply insert_messages_thrown in E as ->.
Qed.

(** Lines 35-37. *)
Lemma POST_invalid env req w request :
  json req = Returned request ->
  truthy (message request) = false ->
  POST env req w =
  (Returned (NextResponse_json [("error", JString "Message is required")] 400),
   w).
Proof.
  intros Hj Ht. unfold POST, try_catch. unfold bind at 1, await.
  rewrite Hj. destruct (message request) as [s|]; [|reflexivity].
  now rewrite Ht.
Qed.

(** C6 fails on a session id that is not a uuid: the lookup of line 45
    is outside the [try] of line 48, the database rejects the comparison
    of a [uuid] column with such a text, and the request ends in the
    [catch] of line 104 with an error answer, no session and no row. *)
Theorem POST_malformed_sessionId env req w request supplied :
  json req = Returned request ->
  truthy (message request) = true ->
  sessionId request = Some supplied -> supplied <> "" ->
  uuid_in env supplied = None ->
  exists e,
    (fault env FindSession = Some e
     \/ fault env FindSession = None /\ e = rejected env FindSession) /\
    POST env req w =
    (Returned (NextResponse_json [("error", JString (fst (classify e)))]
                                 (snd (classify e))), w).
Proof.
  intros Hj Hm Hs Hne Hu.
  apply truthy_spec in Hm as [m [Hm Hmne]].
  assert (exists e,
             (fault env FindSession = Some e
              \/ fault env FindSession = None /\ e = rejected env FindSession)
             /\ select_sessions env FindSession supplied w = (Thrown e, w))
    as [e [He Hsel]].
  { unfold select_sessions, statement.
    destruct (fault env FindSession) as [e|].
    - exists e. auto.
    - rewrite Hu. exists (rejected env FindSession). auto. }
  exists e. split; [exact He|].
  unfold POST, try_catch. unfold bind at 1, await. rewrite Hj, Hm.
  assert (truthy (Some m) = true) as ->
      by (apply truthy_spec; now exists m).
  unfold bind at 1. unfold currentSessionId. rewrite Hs.
  assert (truthy (Some supplied) = true) as ->
      by (apply truthy_spec; now exists supplied).
  unfold bind at 1. rewrite Hsel. apply on_error_eq.
Qed.

Lemma POST_malformed_sessionId_witness :
  POST calm_env (post (Some "hi") (Some "not-a-uuid")) seeded_world =
  (Returned (NextResponse_json [("error", JString msg_generic)] 500),
   seeded_world).
Proof.
  destruct (POST_malformed_sessionId calm_env
              (post (Some "hi") (Some "not-a-uuid")) seeded_world
              (mkChatRequest (Some "hi") (Some "not-a-uuid")) "not-a-uuid")
    as [e [[He|[_ He]] H]];
    [reflexivity | reflexivity | reflexivity | discriminate | reflexivity
    | discriminate He | rewrite H, He; reflexivity].
Defined.

(** A run in which the provider was called and refused. *)
Lemma POST_refused env req w r w' h m e :
  POST env req w = (r, w') ->
  provider_calls w' = (provider_calls w ++ [(h, m)])%list ->
  generate env h m = Thrown e ->
  exists request current u w1 row,
    json req = Returned request /\ message request = Some m /\
    currentSessionId env (sessionId request) w = (Returned current, w1) /\
    uuid_in env current = Some u /\
    row = mkMessage (gen_random_uuid env InsertUserMessage) u "user" m
                    (now env InsertUserMessage) /\
    r = Returned (NextResponse_json [("error", JString (fst (classify e)))]
                                    (snd (classify e))) /\
    sessions w' = sessions w1 /\
    In u (map sess_id (sessions w')) /\
    messages w' = (messages w ++ [row] ++ concurrent env)%list.
Proof.
  intros HP Hcalls Hgen.
  destruct (POST_called _ _ _ _ _ _ _ HP Hcalls)
    as [current [row [previous [at_read [Hr [-> Hc]]]]]].
  destruct (reaches_provider_world _ _ _ _ _ _ _ _ Hr)
    as [request [u [w1 [Hj [Hm [_ [Hcur [Hu [Hin [Hrow [Hs [Hms _]]]]]]]]]]]].
  pose proof (complete_cases env current m previous at_read) as Hcc.
  simpl in Hcc. rewrite Hgen in Hcc. rewrite Hcc, on_error_eq in Hc.
  inversion Hc; subst r w'. simpl.
  exists request, current, u, w1, row.
  rewrite Hs. repeat split; auto.
Qed.

(** C3: when the call to the provider fails, the answer carries the
    message and status [classify] gives for the error, and the user
    message appended before the call is in [messages] afterwards: the
    table is the one before the request, the new user row, and whatever
    other requests committed; no session row is lost. *)
Theorem POST_provider_failure env req w r w' h m e :
  POST env req w = (r, w') ->
  provider_calls w' = (provider_calls w ++ [(h, m)])%list ->
  generate env h m = Thrown e ->
  r = Returned (NextResponse_json [("error", JString (fst (classify e)))]
                                  (snd (classify e))) /\
  (exists row,
      msg_role row = "user" /\ msg_content row = m /\
      In (msg_sessionId row) (map sess_id (sessions w')) /\
      messages w' = (messages w ++ [row] ++ concurrent env)%list) /\
  (forall s, In s (sessions w) -> In s (sessions w')).
Proof.
  intros HP Hcalls Hgen.
  destruct (POST_refused _ _ _ _ _ _ _ _ HP Hcalls Hgen)
    as [request [current [u [w1 [row [_ [_ [Hcur [_ [Hrow [Hr
       [Hs [Hin Hms]]]]]]]]]]]]].
  split; [exact Hr|]. split.
  - exists row. subst row. simpl. auto.
  - intros s Hsin. rewrite Hs.
    now apply (currentSessionId_sessions _ _ _ _ _ Hcur).
Qed.

Lemma POST_provider_failure_witness :
  fst (POST refusing_env (post (Some "hi") (Some open_session)) seeded_world)
  = Returned (NextResponse_json [("error", JString msg_rate)] 429).
Proof.
  destruct (POST_provider_failure refusing_env
              (post (Some "hi") (Some open_session)) seeded_world
              (fst (POST refusing_env (post (Some "hi") (Some open_session))
                         seeded_world))
              (snd (POST refusing_env (post (Some "hi") (Some open_session))
                         seeded_world))
              (history (rev seeded_messages) "hi") "hi" quota_error)
    as [H _].
  - vm_compute. reflexivity.
  - vm_compute. reflexivity.
  - vm_compute. reflexivity.
  - exact H.
Defined.

(** C10: when the call to the provider fails, the body of the answer has
    the single field [error]; it has no [sessionId].  The user message is
    stored under the session [current] all the same, and when [current] is
    not the id that came with the request, the session was created by
    this very request. *)
Theorem POST_provider_failure_body env req w r w' h m e request :
  POST env req w = (r, w') ->
  provider_calls w' = (provider_calls w ++ [(h, m)])%list ->
  generate env h m = Thrown e ->
  json req = Returned request ->
  exists response current row,
    r = Returned response /\
    body response = [("error", JString (fst (classify e)))] /\
    field "sessionId" (body response) = None /\
    In row (messages w') /\ msg_role row = "user" /\ msg_content row = m /\
    uuid_in env current = Some (msg_sessionId row) /\
    (sessionId request <> Some current ->
     ~ In current (map sess_id (sessions w)) /\
     In current (map sess_id (sessions w'))).
Proof.
  intros HP Hcalls Hgen Hj.
  destruct (POST_refused _ _ _ _ _ _ _ _ HP Hcalls Hgen)
    as [request' [current [u [w1 [row [Hj' [_ [Hcur [Hu [Hrow [Hr
       [Hs [Hin Hms]]]]]]]]]]]]].
  assert (request' = request) as -> by congruence.
  exists (NextResponse_json [("error", JString (fst (classify e)))]
                            (snd (classify e))), current, row.
  split; [exact Hr|]. split; [reflexivity|]. split; [reflexivity|].
  split; [rewrite Hms; apply in_or_app; right; now left|].
  subst row. simpl. repeat split; auto.
  - now apply (currentSessionId_sessions _ _ _ _ _ Hcur).
  - rewrite Hs. now apply (currentSessionId_sessions _ _ _ _ _ Hcur).
Qed.

Lemma POST_provider_failure_body_witness :
  exists response current row,
    fst (POST refusing_env (post (Some "hi") None) empty_world)
      = Returned response /\
    body response = [("error", JString (fst (classify quota_error)))] /\
    field "sessionId" (body response) = None /\
    In row (messages (snd (POST refusing_env (post (Some "hi") None)
                                empty_world))) /\
    msg_role row = "user" /\ msg_content row = "hi" /\
    uuid_in refusing_env current = Some (msg_sessionId row) /\
    (sessionId (mkChatRequest (Some "hi") None) <> Some current ->
     ~ In current (map sess_id (sessions empty_world)) /\
     In current
        (map sess_id
             (sessions (snd (POST refusing_env (post (Some "hi") None)
                                  empty_world))))).
Proof.
  apply (POST_provider_failure_body refusing_env (post (Some "hi") None)
           empty_world
           (fst (POST refusing_env (post (Some "hi") None) empty_world))
           (snd (POST refusing_env (post (Some "hi") None) empty_world))
           [] "hi" quota_error (mkChatRequest (Some "hi") None)).
  - vm_compute. reflexivity.
  - vm_compute. reflexivity.
  - vm_compute. reflexivity.
  - reflexivity.
Defined.

(* ================================================================== *)
(** * The context window (lines 62-76) *)

Lemma historyMessages_length (previous : list Message) (m : string) :
  (length (historyMessages previous m) <= length previous)%nat.
Proof.
  destruct previous as [|newest older]; simpl; [lia|].
  destruct (String.eqb (msg_content newest) m); simpl; lia.
Qed.

Lemma historyMessages_dropped newest older m :
  msg_content newest = m -> historyMessages (newest :: older) m = older.
Proof. intros <-. simpl. now rewrite String.eqb_refl. Qed.

Lemma historyMessages_kept newest older m :
  msg_content newest <> m ->
  historyMessages (newest :: older) m = newest :: older.
Proof. intros H. simpl. apply String.eqb_neq in H. now rewrite H. Qed.

Lemma to_content_entry (msg : Message) : provider_entry msg (to_content msg).
Proof.
  unfold provider_entry, to_content. simpl. split; [reflexivity|].
  destruct (String.eqb (msg_role msg) "user") eqn:E.
  - split; [reflexivity|]. apply String.eqb_eq in E. contradiction.
  - split; [|reflexivity]. apply String.eqb_neq in E. contradiction.
Qed.

Lemma history_entries (previous : list Message) (m : string) :
  Forall2 provider_entry (rev (historyMessages previous m))
          (history previous m).
Proof.
  unfold history. induction (rev (historyMessages previous m)); simpl.
  - constructor.
  - constructor; [apply to_content_entry | assumption].
Qed.

Lemma history_length (previous : list Message) (m : string) :
  length (history previous m) = length (historyMessages previous m).
Proof. unfold history. now rewrite length_map, length_rev. Qed.

Lemma of_session_app (u : string) (l1 l2 : list Message) :
  of_session u (l1 ++ l2) = (of_session u l1 ++ of_session u l2)%list.
Proof. apply filter_app. Qed.

Lemma in_firstn {A : Type} (n : nat) (l : list A) (x : A) :
  In x (firstn n l) -> In x l.
Proof.
  intros H. rewrite <- (firstn_skipn n l). apply in_or_app. now left.
Qed.

(** A row newer than all the others comes first in descending order. *)
Lemma newest_row_first (l1 l2 : list Message) (row : Message) :
  all_older row (l1 ++ l2) ->
  exists older,
    order_by desc (l1 ++ row :: l2) = row :: older /\
    Permutation older (l1 ++ l2).
Proof.
  intros Hold. unfold all_older in Hold. rewrite Forall_forall in Hold.
  pose proof (order_by_perm desc (l1 ++ row :: l2)) as Hp.
  pose proof (order_by_desc_newest_first (l1 ++ row :: l2)) as Hs.
  destruct (order_by desc (l1 ++ row :: l2)) as [|x older].
  - apply Permutation_nil in Hp. now destruct l1.
  - apply StronglySorted_inv in Hs as [_ Hx]. rewrite Forall_forall in Hx.
    assert (In row (x :: older)) as Hrow.
    { eapply Permutation_in; [apply Permutation_sym, Hp|].
      apply in_or_app. right. now left. }
    assert (In x (l1 ++ row :: l2)) as Hxin
        by (eapply Permutation_in; [exact Hp | now left]).
    assert (x = row) as ->.
    { apply in_app_or in Hxin as [Hx1|[Hx1|Hx1]]; [|now symmetry|].
      - assert (msg_createdAt x < msg_createdAt row)
          by (apply Hold, in_or_app; now left).
        destruct Hrow as [->|Hr]; [lia|]. specialize (Hx _ Hr). lia.
      - assert (msg_createdAt x < msg_createdAt row)
          by (apply Hold, in_or_app; now right).
        destruct Hrow as [->|Hr]; [lia|]. specialize (Hx _ Hr). lia. }
    exists older. split; [reflexivity|].
    eapply Permutation_cons_app_inv. exact Hp.
Qed.

(** When the appended row is the newest of its session at the read, the
    read puts it first, the window drops it, and at most six rows stay,
    none of them the appended one. *)
Lemma window_without_appended (u m : string) (table others : list Message)
    (row : Message) :
  msg_sessionId row = u -> msg_content row = m ->
  all_older row (of_session u (table ++ others)) ->
  let previous :=
    firstn 7 (order_by desc (of_session u (table ++ [row] ++ others))) in
  (length (historyMessages previous m) <= 6)%nat /\
  ~ In row (historyMessages previous m).
Proof.
  intros Hu Hm Hold previous.
  assert (of_session u (table ++ [row] ++ others)
          = (of_session u table ++ row :: of_session u others)%list) as E.
  { rewrite !of_session_app. simpl. rewrite Hu, String.eqb_refl.
    reflexivity. }
  rewrite of_session_app in Hold.
  destruct (newest_row_first _ _ _ Hold) as [older [Eo Hp]].
  subst previous. rewrite E, Eo, firstn_cons.
  rewrite (historyMessages_dropped _ _ _ Hm). split.
  - apply firstn_le_length.
  - intros Hin. apply in_firstn in Hin.
    assert (In row (of_session u table ++ of_session u others))
      by (eapply Permutation_in; eauto).
    unfold all_older in Hold. rewrite Forall_forall in Hold.
    specialize (Hold _ H). lia.
Qed.

(** C2, as the code has it: the history given to the provider has at most
    seven entries.  It has at most six when the newest row read has the
    content of the message, and so whenever the row just appended is the
    newest of its session at the read. *)
Theorem POST_history_bound env req w r w' h m :
  POST env req w = (r, w') ->
  provider_calls w' = (provider_calls w ++ [(h, m)])%list ->
  (length h <= 7)%nat /\
  exists current u row previous,
    uuid_in env current = Some u /\
    row = mkMessage (gen_random_uuid env InsertUserMessage) u "user" m
                    (now env InsertUserMessage) /\
    previous =
      firstn 7 (order_by desc
                  (of_session u (messages w ++ [row] ++ concurrent env))) /\
    h = history previous m /\
    (forall newest older,
        previous = newest :: older -> msg_content newest = m ->
        (length h <= 6)%nat) /\
    (all_older row (of_session u (messages w ++ concurrent env)) ->
     (length h <= 6)%nat).
Proof.
  intros HP Hcalls.
  destruct (POST_called _ _ _ _ _ _ _ HP Hcalls)
    as [current [row [previous [at_read [Hr [-> _]]]]]].
  destruct (reaches_provider_world _ _ _ _ _ _ _ _ Hr)
    as [request [u [w1 [Hj [Hm [_ [_ [Hu [_ [Hrow [_ [Hms [_ Hprev]]]]]]]]]]]]].
  rewrite Hms in Hprev.
  assert (length previous <= 7)%nat as Hlen
      by (subst previous; apply firstn_le_length).
  split.
  - rewrite history_length.
    pose proof (historyMessages_length previous m). lia.
  - exists current, u, row, previous. repeat split; auto.
    + intros newest older E Hc. rewrite history_length.
      rewrite E in Hlen |- *. rewrite (historyMessages_dropped _ _ _ Hc).
      simpl in Hlen. lia.
    + intros Hold. rewrite history_length, Hprev.
      apply (window_without_appended u m (messages w) (concurrent env) row);
        subst row; auto.
Qed.

Lemma POST_history_bound_witness :
  (length (map to_content seeded_messages) <= 7)%nat.
Proof.
  destruct (POST_history_bound calm_env
              (post (Some "And returns?") (Some open_session)) seeded_world
              (fst (POST calm_env
                         (post (Some "And returns?") (Some open_session))
                         seeded_world))
              (snd (POST calm_env
                         (post (Some "And returns?") (Some open_session))
                         seeded_world))
              (map to_content seeded_messages) "And returns?")
    as [H _].
  - vm_compute. reflexivity.
  - vm_compute. reflexivity.
  - exact H.
Defined.

(** C2 as stated fails: a session holds six messages, a request appends a
    seventh, and before it reads the window another request commits a
    reply to the same session.  The newest row read is that reply, nothing
    is dropped, and the provider is given seven entries, the message of
    the request among them. *)
Lemma POST_history_of_seven :
  length (of_session open_session (messages seeded_world)) = 6%nat /\
  exists h,
    provider_calls
      (snd (POST racing_env (post (Some "And returns?") (Some open_session))
                 seeded_world))
    = [(h, "And returns?")] /\
    length h = 7%nat /\
    In (mkContent "user" [mkPart "And returns?"]) h.
Proof.
  split; [reflexivity|].
  eexists. split; [vm_compute; reflexivity|].
  split; [reflexivity|]. simpl. auto 10.
Qed.

(* ================================================================== *)
(** * Validation (lines 33-37) *)

(** The rows present before [complete] are present after it. *)
Lemma complete_messages env current m previous w x :
  In x (messages w) ->
  In x (messages (snd (complete env current m previous w))).
Proof.
  intros Hx. pose proof (complete_cases env current m previous w) as H.
  simpl in H.
  destruct (generate env (history previous m) m) as [reply|e].
  - match type of H with
    | context [insert_messages ?a1 ?a2 ?a3 ?a4 ?a5 ?a6] =>
        destruct (insert_messages a1 a2 a3 a4 a5 a6) as [[row|e] w'] eqn:E
    end.
    + rewrite H. simpl.
      apply insert_messages_returned in E as [_ [_ [_ [_ [_ ->]]]]].
      simpl. apply in_or_app. now left.
    + rewrite H, on_error_eq. exact Hx.
  - rewrite H, on_error_eq. exact Hx.
Qed.

(** [POST] always answers, in one of three ways: through the [catch]
    block, with the validation error, or with a reply. *)
Lemma POST_answers env req w :
  (exists e w', POST env req w = on_error e w')
  \/ (exists request,
         json req = Returned request /\ truthy (message request) = false /\
         POST env req w =
         (Returned (NextResponse_json
                      [("error", JString "Message is required")] 400), w))
  \/ (exists reply current w',
         POST env req w =
         (Returned (NextResponse_json [("reply", JString reply);
                                       ("sessionId", JString current)] 200),
          w')).
Proof.
  destruct (json req) as [request|e] eqn:Hj.
  2:{ left. exists e, w. unfold POST, try_catch. unfold bind at 1, await.
      now rewrite Hj. }
  destruct (truthy (message request)) eqn:Ht.
  2:{ right. left. exists request. repeat split; auto.
      now apply (POST_invalid env req w request). }
  apply truthy_spec in Ht as [m [Hm Hne]].
  destruct (currentSessionId env (sessionId request) w)
    as [[current|e] w1] eqn:Hc.
  2:{ left. exists e, w1. unfold POST, try_catch. unfold bind at 1, await.
      rewrite Hj, Hm.
      assert (truthy (Some m) = true) as ->
          by (apply truthy_spec; now exists m).
      unfold bind at 1. now rewrite Hc. }
  destruct (insert_messages env InsertUserMessage current "user" m w1)
    as [[row|e] w2] eqn:Hi.
  2:{ left. exists e, w2. unfold POST, try_catch. unfold bind at 1, await.
      rewrite Hj, Hm.
      assert (truthy (Some m) = true) as ->
          by (apply truthy_spec; now exists m).
      unfold bind at 1. rewrite Hc. unfold bind at 1. now rewrite Hi. }
  destruct (others_commit env w2) as [o w3] eqn:Ho.
  assert (o = Returned tt) as -> by (unfold others_commit in Ho; congruence).
  destruct (previousMessages env current w3) as [[previous|e] w4] eqn:Hp;
    pose proof Hp as Hw; unfold previousMessages in Hw;
    apply select_messages_world in Hw; subst w4.
  2:{ left. exists e, w3. unfold POST, try_catch. unfold bind at 1, await.
      rewrite Hj, Hm.
      assert (truthy (Some m) = true) as ->
          by (apply truthy_spec; now exists m).
      unfold bind at 1. rewrite Hc. unfold bind at 1. rewrite Hi.
      unfold bind at 1. rewrite Ho. unfold bind at 1. now rewrite Hp. }
  assert (reaches_provider env req w m current row previous w3) as Hr
      by (exists request, w1, w2; auto 10).
  rewrite (POST_reaches _ _ _ _ _ _ _ _ Hr).
  pose proof (complete_cases env current m previous w3) as H. simpl in H.
  destruct (generate env (history previous m) m) as [reply|e].
  - match type of H with
    | context [insert_messages ?a1 ?a2 ?a3 ?a4 ?a5 ?a6] =>
        destruct (insert_messages a1 a2 a3 a4 a5 a6) as [[row'|e] w'] eqn:E
    end.
    + right. right. exists reply, current, w'. exact H.
    + left. eauto.
  - left. eauto.
Qed.

(* ================================================================== *)
(** * [GET] *)

(** C8 as stated fails in two places.  A [sessionId] that is not a uuid
    is in no row of [sessions], and the answer is the status 500 of the
    [catch] block, not an empty list.  And two rows of a session with the
    same [createdAt] come in the same order in the ascending and in the
    descending read, so neither is the other in reverse. *)
Lemma GET_malformed_or_tied :
  (~ In "not-a-uuid" (map sess_id (sessions seeded_world)) /\
   GET calm_env (get (Some "not-a-uuid")) seeded_world =
   (Returned (NextResponse_json
                [("error", JString "Failed to fetch chat history.")] 500),
    seeded_world))
  /\
  (exists rows recent,
      GET calm_env (get (Some open_session)) tied_world =
      (Returned (NextResponse_json [("messages", JRows rows)] 200),
       tied_world) /\
      fst (select_messages calm_env SelectRecent open_session desc None
                           tied_world) = Returned recent /\
      rows <> rev recent).
Proof.
  split.
  - split; [|vm_compute; reflexivity].
    simpl. intros [H|[]]. discriminate.
  - eexists. eexists. split; [vm_compute; reflexivity|].
    split; [vm_compute; reflexivity|]. discriminate.
Qed.

(* ================================================================== *)
(** * Every path through [POST] *)

(** The places a run of [POST] can end at before it reaches the
    provider, with the world it leaves. *)
Lemma POST_paths env req w :
  (exists e, json req = Thrown e /\ POST env req w = on_error e w)
  \/ (exists request,
         json req = Returned request /\ truthy (message request) = false /\
         POST env req w =
         (Returned (NextResponse_json
                      [("error", JString "Message is required")] 400), w))
  \/ (exists request m e,
         json req = Returned request /\ message request = Some m /\
         currentSessionId env (sessionId request) w = (Thrown e, w) /\
         POST env req w = on_error e w)
  \/ (exists request m current w1 e,
         json req = Returned request /\ message request = Some m /\
         currentSessionId env (sessionId request) w = (Returned current, w1) /\
         insert_messages env InsertUserMessage current "user" m w1
           = (Thrown e, w1) /\
         POST env req w = on_error e w1)
  \/ (exists request m current w1 row w2 e,
         json req = Returned request /\ message request = Some m /\
         currentSessionId env (sessionId request) w = (Returned current, w1) /\
         insert_messages env InsertUserMessage current "user" m w1
           = (Returned row, w2) /\
         POST env req w =
         on_error e (mkWorld (sessions w2) (messages w2 ++ concurrent env)
                             (provider_calls w2)))
  \/ (exists m current row previous at_read,
         reaches_provider env req w m current row previous at_read).
Proof.
  destruct (json req) as [request|e] eqn:Hj.
  2:{ left. exists e. split; [reflexivity|].
      unfold POST, try_catch. unfold bind at 1, await. now rewrite Hj. }
  right.
  destruct (truthy (message request)) eqn:Ht.
  2:{ left. exists request. repeat split; auto.
      now apply (POST_invalid env req w request). }
  right. apply truthy_spec in Ht as [m [Hm Hne]].
  assert (truthy (Some m) = true) as Ht
      by (apply truthy_spec; now exists m).
  destruct (currentSessionId env (sessionId request) w)
    as [[current|e] w1] eqn:Hc.
  2:{ left. pose proof (currentSessionId_thrown _ _ _ _ _ Hc) as ->.
      exists request, m, e. repeat split; auto.
      unfold POST, try_catch. unfold bind at 1, await.
      rewrite Hj, Hm, Ht. unfold bind at 1. now rewrite Hc. }
  right.
  destruct (insert_messages env InsertUserMessage current "user" m w1)
    as [[row|e] w2] eqn:Hi.
  2:{ left. pose proof (insert_messages_thrown _ _ _ _ _ _ _ _ Hi) as ->.
      exists request, m, current, w1, e. repeat split; auto.
      unfold POST, try_catch. unfold bind at 1, await.
      rewrite Hj, Hm, Ht. unfold bind at 1. rewrite Hc.
      unfold bind at 1. now rewrite Hi. }
  right.
  set (at_read := mkWorld (sessions w2) (messages w2 ++ concurrent env)
                          (provider_calls w2)).
  destruct (previousMessages env current at_read)
    as [[previous|e] w4] eqn:Hp;
    pose proof Hp as Hw; unfold previousMessages in Hw;
    apply select_messages_world in Hw; subst w4.
  - right. exists m, current, row, previous, at_read.
    exists request, w1, w2. auto 10.
  - left. exists request, m, current, w1, row, w2, e. repeat split; auto.
    unfold POST, try_catch. unfold bind at 1, await.
    rewrite Hj, Hm, Ht. unfold bind at 1. rewrite Hc.
    unfold bind at 1. rewrite Hi. unfold bind at 1, others_commit.
    fold at_read. unfold bind at 1. now rewrite Hp.
Qed.

Lemma classify_status (e : JsError) :
  In (snd (classify e)) [500; 429; 504] /\
  In (fst (classify e)) [msg_generic; msg_config; msg_rate; msg_timeout].
Proof.
  pose proof (classify_range e) as H. simpl in H.
  destruct H as [H|[H|[H|[H|[]]]]]; rewrite <- H; simpl; auto 10.
Qed.

(** X1: a request answered with status 200 has called the provider once,
    the body carries the provider's reply and the session id, and
    [messages] has gained the user row and then the assistant row with
    that reply, both under the session; rows of other requests may lie
    between the two. *)
Theorem POST_replied env req w response w' :
  POST env req w = (Returned response, w') ->
  status response = 200 ->
  exists request m current u reply h,
    json req = Returned request /\ message request = Some m /\
    body response = [("reply", JString reply);
                     ("sessionId", JString current)] /\
    uuid_in env current = Some u /\
    In u (map sess_id (sessions w')) /\
    generate env h m = Returned reply /\
    provider_calls w' = (provider_calls w ++ [(h, m)])%list /\
    messages w' =
      (messages w
       ++ [mkMessage (gen_random_uuid env InsertUserMessage) u "user" m
                     (now env InsertUserMessage)]
       ++ concurrent env
       ++ [mkMessage (gen_random_uuid env InsertAssistantMessage) u
                     "assistant" reply (now env InsertAssistantMessage)])%list.
Proof.
  intros HP Hst.
  assert (forall e w1, POST env req w = on_error e w1 -> False) as Herr.
  { intros e w1 H. rewrite H, on_error_eq in HP. inversion HP; subst.
    simpl in Hst. destruct (classify_status e) as [Hs _]. simpl in Hs.
    rewrite Hst in Hs. intuition discriminate. }
  destruct (POST_paths env req w)
    as [[e [_ H]] | [[request [_ [_ H]]] | [[request [m [e [_ [_ [_ H]]]]]]
       | [[request [m [cur [w1 [e [_ [_ [_ [_ H]]]]]]]]]
       | [[request [m [cur [w1 [row [w2 [e [_ [_ [_ [_ H]]]]]]]]]]]
       | [m [current [row [previous [at_read Hr]]]]]]]]]];
    try (exfalso; eapply Herr; exact H).
  - rewrite H in HP. inversion HP; subst. discriminate.
  - rewrite (POST_reaches _ _ _ _ _ _ _ _ Hr) in HP.
    destruct (reaches_provider_world _ _ _ _ _ _ _ _ Hr)
      as [request [u [w1 [Hj [Hm [_ [_ [Hu [Hin [Hrow [Hs [Hms [Hcs _]]]]]]]]]]]]].
    pose proof (complete_cases env current m previous at_read) as Hcc.
    simpl in Hcc.
    destruct (generate env (history previous m) m) as [reply|e] eqn:Hg.
    2:{ exfalso. apply (Herr e (mkWorld (sessions at_read) (messages at_read)
            (provider_calls at_read ++ [(history previous m, m)]))).
        rewrite (POST_reaches _ _ _ _ _ _ _ _ Hr). exact Hcc. }
    match type of Hcc with
    | context [insert_messages ?a1 ?a2 ?a3 ?a4 ?a5 ?a6] =>
        destruct (insert_messages a1 a2 a3 a4 a5 a6) as [[row'|e] w''] eqn:E
    end.
    2:{ exfalso. eapply Herr.
        rewrite (POST_reaches _ _ _ _ _ _ _ _ Hr). exact Hcc. }
    rewrite Hcc in HP. inversion HP; subst response w''. clear HP.
    apply insert_messages_returned in E
      as [_ [Hu' [_ [_ [Hrow' ->]]]]]. simpl in *.
    assert (msg_sessionId row' = u) as Eu by congruence.
    exists request, m, current, u, reply, (history previous m).
    rewrite Hs, Hms, Hcs, Hrow', Eu, Hrow.
    repeat split; auto. now rewrite <- !app_assoc.
Qed.

Lemma POST_replied_witness :
  exists request m current u reply h,
    json (post (Some "What are your hours?") None) = Returned request /\
    message request = Some m /\
    body (NextResponse_json
            [("reply", JString sample_reply);
             ("sessionId", JString (sample_uuid InsertSession))] 200)
      = [("reply", JString reply); ("sessionId", JString current)] /\
    uuid_in calm_env current = Some u /\
    In u (map sess_id
              (sessions (snd (POST calm_env
                                   (post (Some "What are your hours?") None)
                                   empty_world)))) /\
    generate calm_env h m = Returned reply /\
    provider_calls (snd (POST calm_env
                              (post (Some "What are your hours?") None)
                              empty_world))
      = (provider_calls empty_world ++ [(h, m)])%list /\
    messages (snd (POST calm_env (post (Some "What are your hours?") None)
                        empty_world)) =
      (messages empty_world
       ++ [mkMessage (gen_random_uuid calm_env InsertUserMessage) u "user" m
                     (now calm_env InsertUserMessage)]
       ++ concurrent calm_env
       ++ [mkMessage (gen_random_uuid calm_env InsertAssistantMessage) u
                     "assistant" reply
                     (now calm_env InsertAssistantMessage)])%list.
Proof.
  apply (POST_replied calm_env (post (Some "What are your hours?") None)
           empty_world).
  - vm_compute. reflexivity.
  - reflexivity.
Defined.

Lemma currentSessionId_world env sid w current w1 :
  currentSessionId env sid w = (Returned current, w1) ->
  exists new_sessions,
    sessions w1 = (sessions w ++ new_sessions)%list /\
    (length new_sessions <= 1)%nat /\
    messages w1 = messages w /\ provider_calls w1 = provider_calls w.
Proof.
  intros H. apply currentSessionId_returned in H as [Hm [Hc H]].
  destruct H as [[_ [_ [_ Hs]]] | [supplied [u [_ [_ [_ H]]]]]].
  - eexists. split; [exact Hs|]. simpl. auto.
  - destruct H as [[_ [_ ->]] | [[_ [_ Hs]] | [_ [_ [_ [_ Hs]]]]]].
    + exists []. rewrite app_nil_r. simpl. auto.
    + eexists. split; [exact Hs|]. simpl. auto.
    + eexists. split; [exact Hs|]. simpl. auto.
Qed.

(** X2: [POST] never lets an exception out.  It answers with one of the
    statuses 200, 400, 429, 500 and 504, and an answer other than 200 has
    the single field [error] holding one of five fixed texts, so no text
    of a driver or provider error reaches the client. *)
Theorem POST_always_answers env req w :
  exists response,
    fst (POST env req w) = Returned response /\
    In (status response) [200; 400; 429; 500; 504] /\
    (status response <> 200 ->
     exists msg,
       body response = [("error", JString msg)] /\
       In msg [msg_generic; msg_config; msg_rate; msg_timeout;
               "Message is required"]).
Proof.
  destruct (POST_answers env req w)
    as [[e [w' H]] | [[request [_ [_ H]]] | [reply [current [w' H]]]]];
    rewrite H.
  - rewrite on_error_eq. eexists. split; [reflexivity|]. simpl.
    destruct (classify_status e) as [Hs Hm]. simpl in Hs, Hm. split.
    + intuition auto.
    + intros _. eexists. split; [reflexivity|]. intuition auto.
  - eexists. split; [reflexivity|]. simpl. split; [auto|].
    intros _. eexists. split; [reflexivity|]. auto 10.
  - eexists. split; [reflexivity|]. simpl. split; [auto|].
    intros Hne. contradiction.
Qed.

(** X3: [POST] only appends.  The tables after a request are the tables
    before it followed by new rows: at most one session, at most one
    message before and one after the rows other requests committed, and
    the provider is called at most once. *)
Theorem POST_append_only env req w :
  exists new_sessions before others after calls,
    sessions (snd (POST env req w)) = (sessions w ++ new_sessions)%list /\
    (length new_sessions <= 1)%nat /\
    messages (snd (POST env req w))
      = (messages w ++ before ++ others ++ after)%list /\
    (length before <= 1)%nat /\ (length after <= 1)%nat /\
    (others = [] \/ others = concurrent env) /\
    provider_calls (snd (POST env req w)) = (provider_calls w ++ calls)%list /\
    (length calls <= 1)%nat.
Proof.
  assert (exists new_sessions before others after calls,
             sessions w = (sessions w ++ new_sessions)%list /\
             (length new_sessions <= 1)%nat /\
             messages w = (messages w ++ before ++ others ++ after)%list /\
             (length before <= 1)%nat /\ (length after <= 1)%nat /\
             (others = [] \/ others = concurrent env) /\
             provider_calls w = (provider_calls w ++ calls)%list /\
             (length calls <= 1)%nat) as Hsame.
  { exists [], [], [], [], []. simpl. rewrite !app_nil_r. auto 10. }
  destruct (POST_paths env req w)
    as [[e [_ H]] | [[request [_ [_ H]]] | [[request [m [e [_ [_ [_ H]]]]]]
       | [[request [m [cur [w1 [e [_ [_ [Hc [_ H]]]]]]]]]
       | [[request [m [cur [w1 [row [w2 [e [_ [_ [Hc [Hi H]]]]]]]]]]]
       | [m [current [row [previous [at_read Hr]]]]]]]]]].
  - rewrite H, on_error_eq. exact Hsame.
  - rewrite H. exact Hsame.
  - rewrite H, on_error_eq. exact Hsame.
  - rewrite H, on_error_eq. simpl.
    destruct (currentSessionId_world _ _ _ _ _ Hc) as [ns [Hs [Hl [Hm Hcs]]]].
    exists ns, [], [], [], []. rewrite Hs, Hm, Hcs. simpl.
    rewrite !app_nil_r. auto 10.
  - rewrite H, on_error_eq. simpl.
    destruct (currentSessionId_world _ _ _ _ _ Hc) as [ns [Hs [Hl [Hm Hcs]]]].
    apply insert_messages_returned in Hi as [_ [_ [_ [_ [_ ->]]]]]. simpl.
    exists ns, [row], (concurrent env), [], []. rewrite Hs, Hm, Hcs. simpl.
    rewrite !app_nil_r, <- app_assoc. simpl. auto 10.
  - rewrite (POST_reaches _ _ _ _ _ _ _ _ Hr).
    destruct (reaches_provider_world _ _ _ _ _ _ _ _ Hr)
      as [request [u [w1 [_ [_ [_ [Hc [_ [_ [_ [Hs [Hms [Hcs _]]]]]]]]]]]]].
    destruct (currentSessionId_world _ _ _ _ _ Hc) as [ns [Hs1 [Hl _]]].
    pose proof (complete_cases env current m previous at_read) as Hcc.
    simpl in Hcc.
    destruct (generate env (history previous m) m) as [reply|e].
    + match type of Hcc with
      | context [insert_messages ?a1 ?a2 ?a3 ?a4 ?a5 ?a6] =>
          destruct (insert_messages a1 a2 a3 a4 a5 a6)
            as [[row'|e] w''] eqn:E
      end.
      * rewrite Hcc. simpl.
        apply insert_messages_returned in E as [_ [_ [_ [_ [_ ->]]]]].
        simpl. exists ns, [row], (concurrent env), [row'],
                 [(history previous m, m)].
        rewrite Hs, Hs1, Hms, Hcs. simpl. rewrite <- !app_assoc. simpl.
        auto 10.
      * rewrite Hcc, on_error_eq. simpl.
        exists ns, [row], (concurrent env), [], [(history previous m, m)].
        rewrite Hs, Hs1, Hms, Hcs. simpl. rewrite !app_nil_r. auto 10.
    + rewrite Hcc, on_error_eq. simpl.
      exists ns, [row], (concurrent env), [], [(history previous m, m)].
      rewrite Hs, Hs1, Hms, Hcs. simpl. rewrite !app_nil_r. auto 10.
Qed.

(** X4: when the session resolves and the insert of the user message
    throws, the answer is the one the [catch] block gives for that error,
    the provider is not called and no message is stored; the session
    row the resolution may have created stays. *)
Theorem POST_append_failure env req w request m current w1 e :
  json req = Returned request ->
  message request = Some m -> m <> "" ->
  currentSessionId env (sessionId request) w = (Returned current, w1) ->
  insert_messages env InsertUserMessage current "user" m w1 = (Thrown e, w1) ->
  POST env req w =
  (Returned (NextResponse_json [("error", JString (fst (classify e)))]
                               (snd (classify e))), w1)
  /\ messages w1 = messages w
  /\ provider_calls w1 = provider_calls w
  /\ (sessionId request <> Some current ->
      ~ In current (map sess_id (sessions w)) /\
      In current (map sess_id (sessions w1))).
Proof.
  intros Hj Hm Hne Hc Hi.
  assert (truthy (Some m) = true) as Ht
      by (apply truthy_spec; now exists m).
  split; [|split; [|split]].
  - rewrite <- on_error_eq. unfold POST, try_catch. unfold bind at 1, await.
    rewrite Hj, Hm, Ht. unfold bind at 1. rewrite Hc.
    unfold bind at 1. now rewrite Hi.
  - now destruct (currentSessionId_returned _ _ _ _ _ Hc) as [-> _].
  - now destruct (currentSessionId_returned _ _ _ _ _ Hc) as [_ [-> _]].
  - now apply (currentSessionId_sessions _ _ _ _ _ Hc).
Qed.

Lemma POST_append_failure_witness :
  POST lossy_env (post (Some "hi") None) empty_world =
  (Returned (NextResponse_json [("error", JString msg_timeout)] 504),
   mkWorld [mkSession (sample_uuid InsertSession) 1000] [] [])
  /\ messages (mkWorld [mkSession (sample_uuid InsertSession) 1000] [] [])
     = messages empty_world
  /\ provider_calls (mkWorld [mkSession (sample_uuid InsertSession) 1000] [] [])
     = provider_calls empty_world
  /\ (sessionId (mkChatRequest (Some "hi") None)
        <> Some (sample_uuid InsertSession) ->
      ~ In (sample_uuid InsertSession) (map sess_id (sessions empty_world)) /\
      In (sample_uuid InsertSession)
         (map sess_id
              (sessions (mkWorld [mkSession (sample_uuid InsertSession) 1000]
                                 [] [])))).
Proof.
  apply (POST_append_failure lossy_env (post (Some "hi") None) empty_world
           (mkChatRequest (Some "hi") None) "hi" (sample_uuid InsertSession)
           (mkWorld [mkSession (sample_uuid InsertSession) 1000] [] [])
           timeout_error).
  - reflexivity.
  - reflexivity.
  - discriminate.
  - vm_compute. reflexivity.
  - vm_compute. reflexivity.
Defined.

(** X5: when the provider has replied and the answer is still not a 200,
    the insert of the reply has thrown: the answer is the one the [catch]
    block gives for that error, the reply is neither returned nor stored,
    and the user message stays in [messages]. *)
Theorem POST_reply_lost env req w response w' h m reply :
  POST env req w = (Returned response, w') ->
  provider_calls w' = (provider_calls w ++ [(h, m)])%list ->
  generate env h m = Returned reply ->
  status response <> 200 ->
  exists e current u,
    uuid_in env current = Some u /\
    insert_messages env InsertAssistantMessage current "assistant" reply w'
      = (Thrown e, w') /\
    response = NextResponse_json [("error", JString (fst (classify e)))]
                                 (snd (classify e)) /\
    field "reply" (body response) = None /\
    messages w' =
      (messages w
       ++ [mkMessage (gen_random_uuid env InsertUserMessage) u "user" m
                     (now env InsertUserMessage)]
       ++ concurrent env)%list.
Proof.
  intros HP Hcalls Hgen Hst.
  destruct (POST_called _ _ _ _ _ _ _ HP Hcalls)
    as [current [row [previous [at_read [Hr [-> Hc]]]]]].
  destruct (reaches_provider_world _ _ _ _ _ _ _ _ Hr)
    as [request [u [w1 [_ [_ [_ [_ [Hu [_ [Hrow [_ [Hms _]]]]]]]]]]]].
  pose proof (complete_cases env current m previous at_read) as Hcc.
  simpl in Hcc. rewrite Hgen in Hcc.
  match type of Hcc with
  | context [insert_messages ?a1 ?a2 ?a3 ?a4 ?a5 ?a6] =>
      destruct (insert_messages a1 a2 a3 a4 a5 a6) as [[row'|e] w''] eqn:E
  end.
  - rewrite Hcc in Hc. inversion Hc; subst. simpl in Hst. contradiction.
  - rewrite Hcc, on_error_eq in Hc. inversion Hc; subst response w'.
    pose proof (insert_messages_thrown _ _ _ _ _ _ _ _ E) as ->.
    exists e, current, u.
    split; [exact Hu|]. split; [exact E|]. split; [reflexivity|].
    split; [reflexivity|]. simpl. now rewrite Hms, Hrow.
Qed.

Lemma POST_reply_lost_witness :
  exists e current u,
    uuid_in forgetful_env current = Some u /\
    insert_messages forgetful_env InsertAssistantMessage current "assistant"
      sample_reply
      (snd (POST forgetful_env (post (Some "hi") None) empty_world))
      = (Thrown e,
         snd (POST forgetful_env (post (Some "hi") None) empty_world)) /\
    NextResponse_json [("error", JString msg_timeout)] 504
      = NextResponse_json [("error", JString (fst (classify e)))]
                          (snd (classify e)) /\
    field "reply"
          (body (NextResponse_json [("error", JString msg_timeout)] 504))
      = None /\
    messages (snd (POST forgetful_env (post (Some "hi") None) empty_world)) =
      (messages empty_world
       ++ [mkMessage (gen_random_uuid forgetful_env InsertUserMessage) u
                     "user" "hi" (now forgetful_env InsertUserMessage)]
       ++ concurrent forgetful_env)%list.
Proof.
  apply (POST_reply_lost forgetful_env (post (Some "hi") None) empty_world
           (NextResponse_json [("error", JString msg_timeout)] 504)
           (snd (POST forgetful_env (post (Some "hi") None) empty_world))
           [] "hi" sample_reply).
  - vm_compute. reflexivity.
  - vm_compute. reflexivity.
  - reflexivity.
  - simpl. lia.
Defined.

(* ================================================================== *)
(** * Session resolution, case by case *)

(** X6: an id that is the text of a uuid is kept as it came.  When the
    table has the session nothing is written; when it has not, a session
    with the client's id is created. *)
Theorem currentSessionId_supplied env w supplied u :
  supplied <> "" ->
  uuid_in env supplied = Some u ->
  fault env FindSession = None ->
  (In u (map sess_id (sessions w)) ->
   currentSessionId env (Some supplied) w = (Returned supplied, w))
  /\
  (~ In u (map sess_id (sessions w)) ->
   fault env InsertSessionWithId = None ->
   currentSessionId env (Some supplied) w =
   (Returned supplied,
    mkWorld (sessions w ++ [mkSession u (now env InsertSessionWithId)])
            (messages w) (provider_calls w))).
Proof.
  intros Hne Hu Hf.
  assert (truthy (Some supplied) = true) as Ht
      by (apply truthy_spec; now exists supplied).
  assert (select_sessions env FindSession supplied w
          = (Returned (firstn 1 (filter (fun s => String.eqb (sess_id s) u)
                                        (sessions w))), w)) as Hsel
      by (unfold select_sessions, statement; now rewrite Hf, Hu).
  split.
  - intros Hin. unfold currentSessionId. rewrite Ht.
    unfold bind at 1. rewrite Hsel, find_session_length.
    apply has_id_In in Hin. now rewrite Hin.
  - intros Hn Hf'. unfold currentSessionId. rewrite Ht.
    unfold bind at 1. rewrite Hsel, find_session_length.
    assert (has_id u (map sess_id (sessions w)) = false) as Hh.
    { destruct (has_id u (map sess_id (sessions w))) eqn:E; [|reflexivity].
      apply has_id_In in E. contradiction. }
    rewrite Hh. simpl. unfold try_catch, bind, insert_sessions, statement.
    now rewrite Hf', Hu, Hh.
Qed.

Lemma currentSessionId_supplied_witness :
  (In open_session (map sess_id (sessions seeded_world)) ->
   currentSessionId calm_env (Some open_session) seeded_world
   = (Returned open_session, seeded_world))
  /\
  (~ In open_session (map sess_id (sessions seeded_world)) ->
   fault calm_env InsertSessionWithId = None ->
   currentSessionId calm_env (Some open_session) seeded_world =
   (Returned open_session,
    mkWorld (sessions seeded_world
             ++ [mkSession open_session (now calm_env InsertSessionWithId)])
            (messages seeded_world) (provider_calls seeded_world))).
Proof.
  apply (currentSessionId_supplied calm_env seeded_world open_session
           open_session).
  - discriminate.
  - vm_compute. reflexivity.
  - reflexivity.
Defined.

(** X7: when the insert with the client's id throws, the [catch] of line
    50 creates a session with an id of the database's own and returns
    that id; the client's id is not created.  An error of this second
    insert is not caught: the resolution throws it and writes nothing. *)
Theorem currentSessionId_fallback env w supplied u e :
  supplied <> "" ->
  uuid_in env supplied = Some u ->
  fault env FindSession = None ->
  ~ In u (map sess_id (sessions w)) ->
  fault env InsertSessionWithId = Some e ->
  (fault env InsertSessionAgain = None ->
   ~ In (gen_random_uuid env InsertSessionAgain)
        (map sess_id (sessions w)) ->
   currentSessionId env (Some supplied) w =
   (Returned (gen_random_uuid env InsertSessionAgain),
    mkWorld (sessions w
             ++ [mkSession (gen_random_uuid env InsertSessionAgain)
                           (now env InsertSessionAgain)])
            (messages w) (provider_calls w)))
  /\
  (forall e', fault env InsertSessionAgain = Some e' ->
              currentSessionId env (Some supplied) w = (Thrown e', w)).
Proof.
  intros Hne Hu Hf Hn Hf'.
  assert (truthy (Some supplied) = true) as Ht
      by (apply truthy_spec; now exists supplied).
  assert (has_id u (map sess_id (sessions w)) = false) as Hh.
  { destruct (has_id u (map sess_id (sessions w))) eqn:E; [|reflexivity].
    apply has_id_In in E. contradiction. }
  assert (currentSessionId env (Some supplied) w =
          (newSession <- insert_sessions env InsertSessionAgain None ;;
           ret (sess_id newSession)) w) as ->.
  { unfold currentSessionId. rewrite Ht. unfold bind at 1.
    unfold select_sessions, statement. rewrite Hf, Hu.
    rewrite find_session_length, Hh. simpl.
    unfold try_catch. unfold bind at 1.
    unfold insert_sessions at 1, statement. now rewrite Hf'. }
  split.
  - intros Hf2 Hfresh. unfold bind, insert_sessions, statement.
    rewrite Hf2.
    assert (has_id (gen_random_uuid env InsertSessionAgain)
                   (map sess_id (sessions w)) = false) as ->; [|reflexivity].
    destruct (has_id (gen_random_uuid env InsertSessionAgain)
                     (map sess_id (sessions w))) eqn:E; [|reflexivity].
    apply has_id_In in E. contradiction.
  - intros e' Hf2. unfold bind, insert_sessions, statement.
    now rewrite Hf2.
Qed.

Lemma currentSessionId_fallback_witness :
  (fault flaky_env InsertSessionAgain = None ->
   ~ In (gen_random_uuid flaky_env InsertSessionAgain)
        (map sess_id (sessions seeded_world)) ->
   currentSessionId flaky_env (Some unknown_session) seeded_world =
   (Returned (gen_random_uuid flaky_env InsertSessionAgain),
    mkWorld (sessions seeded_world
             ++ [mkSession (gen_random_uuid flaky_env InsertSessionAgain)
                           (now flaky_env InsertSessionAgain)])
            (messages seeded_world) (provider_calls seeded_world)))
  /\
  (forall e', fault flaky_env InsertSessionAgain = Some e' ->
              currentSessionId flaky_env (Some unknown_session) seeded_world
              = (Thrown e', seeded_world)).
Proof.
  apply (currentSessionId_fallback flaky_env seeded_world unknown_session
           unknown_session
           (mkError (Some "Connection terminated") None None)).
  - discriminate.
  - vm_compute. reflexivity.
  - reflexivity.
  - simpl. intros [H|[]]. discriminate.
  - reflexivity.
Defined.

(* ================================================================== *)
(** * [GET] and [POST] together *)

(** A session the table has, read by a database that answers. *)
Lemma GET_found env req w supplied u :
  searchParams_sessionId req = Some supplied -> supplied <> "" ->
  uuid_in env supplied = Some u ->
  In u (map sess_id (sessions w)) ->
  fault env FindSessionForHistory = None ->
  fault env SelectHistory = None ->
  GET env req w =
  (Returned (NextResponse_json
               [("messages", JRows (order_by asc (of_session u (messages w))))]
               200), w).
Proof.
  intros Hs Hne Hu Hin Hf Hf'.
  assert (truthy (Some supplied) = true) as Ht
      by (apply truthy_spec; now exists supplied).
  unfold GET, try_catch. rewrite Hs, Ht. unfold bind at 1.
  unfold select_sessions, statement. rewrite Hf, Hu.
  rewrite find_session_length. apply has_id_In in Hin. rewrite Hin. simpl.
  unfold bind at 1, select_messages, statement. now rewrite Hf', Hu.
Qed.

(** X8: [GET] writes nothing and never lets an exception out.  It answers
    200 with rows that are all in [messages], or 400 or 500 with the
    single field [error] and one of two fixed texts. *)
Theorem GET_read_only env req w :
  snd (GET env req w) = w /\
  exists response,
    fst (GET env req w) = Returned response /\
    ((status response = 200 /\
      exists rows, body response = [("messages", JRows rows)] /\
                   forall r, In r rows -> In r (messages w))
     \/
     (status response = 400 /\
      body response = [("error", JString "Session ID is required")])
     \/
     (status response = 500 /\
      body response = [("error", JString "Failed to fetch chat history.")])).
Proof.
  unfold GET, try_catch.
  destruct (searchParams_sessionId req) as [s|] eqn:Hs.
  2:{ split; [reflexivity|]. eexists. split; [reflexivity|].
      right. left. auto. }
  destruct (truthy (Some s)).
  2:{ split; [reflexivity|]. eexists. split; [reflexivity|].
      right. left. auto. }
  unfold bind. cbv beta.
  destruct (select_sessions env FindSessionForHistory s w)
    as [[l|e] w1] eqn:E;
    pose proof (select_sessions_world _ _ _ _ _ _ E) as ->.
  2:{ split; [reflexivity|]. eexists. split; [reflexivity|].
      right. right. auto. }
  destruct (length l =? 0)%nat.
  { split; [reflexivity|]. eexists. split; [reflexivity|].
    left. split; [reflexivity|]. exists []. split; [reflexivity|].
    intros r []. }
  destruct (select_messages env SelectHistory s asc None w)
    as [[rows|e] w1] eqn:E';
    pose proof (select_messages_world _ _ _ _ _ _ _ _ E') as ->.
  - split; [reflexivity|]. eexists. split; [reflexivity|].
    left. split; [reflexivity|]. exists rows. split; [reflexivity|].
    apply select_messages_returned in E' as [_ [u [_ ->]]].
    intros r Hr.
    apply (Permutation_in _ (order_by_perm asc _)) in Hr.
    unfold of_session in Hr. now apply filter_In in Hr as [Hr _].
  - split; [reflexivity|]. eexists. split; [reflexivity|].
    right. right. auto.
Qed.

(** In an ascending order an older row comes before a newer one. *)
Lemma oldest_first_before (rows : list Message) (x y : Message) :
  oldest_first rows -> In x rows -> In y rows ->
  msg_createdAt x < msg_createdAt y ->
  exists l1 l2 l3, rows = (l1 ++ x :: l2 ++ y :: l3)%list.
Proof.
  intros Hs Hx Hy Hlt.
  destruct (in_split _ _ Hx) as [l1 [r ->]].
  apply StronglySorted_app_inv in Hs as [_ [Hr H1]].
  apply in_app_or in Hy as [Hy|[Hy|Hy]].
  - specialize (H1 y x Hy (or_introl eq_refl)). simpl in H1. lia.
  - subst. lia.
  - destruct (in_split _ _ Hy) as [l2 [l3 ->]]. now exists l1, l2, l3.
Qed.

(** A 200 answer of [POST], with the two rows it stored. *)
Lemma POST_200_rows env req w response w' :
  POST env req w = (Returned response, w') ->
  status response = 200 ->
  exists m current u reply,
    body response = [("reply", JString reply);
                     ("sessionId", JString current)] /\
    message_of_request req = Some m /\
    uuid_in env current = Some u /\
    In u (map sess_id (sessions w')) /\
    In (mkMessage (gen_random_uuid env InsertUserMessage) u "user" m
                  (now env InsertUserMessage)) (messages w') /\
    In (mkMessage (gen_random_uuid env InsertAssistantMessage) u
                  "assistant" reply (now env InsertAssistantMessage))
       (messages w').
Proof.
  intros HP Hst.
  assert (forall e w1, POST env req w = on_error e w1 -> False) as Herr.
  { intros e w1 H. rewrite H, on_error_eq in HP. inversion HP; subst.
    simpl in Hst. destruct (classify_status e) as [Hs _]. simpl in Hs.
    rewrite Hst in Hs. intuition discriminate. }
  destruct (POST_paths env req w)
    as [[e [_ H]] | [[request [_ [_ H]]] | [[request [m [e [_ [_ [_ H]]]]]]
       | [[request [m [cur [w1 [e [_ [_ [_ [_ H]]]]]]]]]
       | [[request [m [cur [w1 [row [w2 [e [_ [_ [_ [_ H]]]]]]]]]]]
       | [m [current [row [previous [at_read Hr]]]]]]]]]];
    try (exfalso; eapply Herr; exact H).
  - rewrite H in HP. inversion HP; subst. discriminate.
  - rewrite (POST_reaches _ _ _ _ _ _ _ _ Hr) in HP.
    destruct (reaches_provider_world _ _ _ _ _ _ _ _ Hr)
      as [request [u [w1 [Hj [Hm [_ [_ [Hu [Hin [Hrow [Hs [Hms [Hcs _]]]]]]]]]]]]].
    pose proof (complete_cases env current m previous at_read) as Hcc.
    simpl in Hcc.
    destruct (generate env (history previous m) m) as [reply|e] eqn:Hg.
    2:{ exfalso. eapply Herr.
        rewrite (POST_reaches _ _ _ _ _ _ _ _ Hr). exact Hcc. }
    match type of Hcc with
    | context [insert_messages ?a1 ?a2 ?a3 ?a4 ?a5 ?a6] =>
        destruct (insert_messages a1 a2 a3 a4 a5 a6) as [[row'|e] w''] eqn:E
    end.
    2:{ exfalso. eapply Herr.
        rewrite (POST_reaches _ _ _ _ _ _ _ _ Hr). exact Hcc. }
    rewrite Hcc in HP. inversion HP; subst response w''. clear HP.
    apply insert_messages_returned in E
      as [_ [Hu' [_ [_ [Hrow' ->]]]]]. simpl in *.
    assert (msg_sessionId row' = u) as Eu by congruence.
    exists m, current, u, reply.
    rewrite Hs, Hms, <- Hrow, Hrow', Eu.
    repeat split; auto.
    + unfold message_of_request. now rewrite Hj.
    + apply in_or_app. left. apply in_or_app. right. now left.
    + apply in_or_app. right. now left.
Qed.

(** X9: after a [POST] answered with status 200, a [GET] with the
    [sessionId] of the answer, on a database that answers, returns status
    200 and the rows of the session with the user message of the request
    before the reply, provided the reply was stored at a later time than
    the message. *)
Theorem POST_then_GET env req w response w' env' req' current :
  POST env req w = (Returned response, w') ->
  status response = 200 ->
  field "sessionId" (body response) = Some (JString current) ->
  searchParams_sessionId req' = Some current -> current <> "" ->
  uuid_in env' current = uuid_in env current ->
  fault env' FindSessionForHistory = None ->
  fault env' SelectHistory = None ->
  now env InsertUserMessage < now env InsertAssistantMessage ->
  exists m reply u rows l1 l2 l3,
    message_of_request req = Some m /\
    field "reply" (body response) = Some (JString reply) /\
    GET env' req' w' =
    (Returned (NextResponse_json [("messages", JRows rows)] 200), w') /\
    rows =
      (l1 ++ mkMessage (gen_random_uuid env InsertUserMessage) u "user" m
                       (now env InsertUserMessage)
          :: l2 ++ mkMessage (gen_random_uuid env InsertAssistantMessage) u
                             "assistant" reply
                             (now env InsertAssistantMessage)
          :: l3)%list.
Proof.
  intros HP Hst Hfield Hs Hne Hsame Hf Hf' Hlt.
  destruct (POST_200_rows _ _ _ _ _ HP Hst)
    as [m [current' [u [reply [Hb [Hm [Hu [Hin [Huser Hasst]]]]]]]]].
  rewrite Hb in Hfield. simpl in Hfield. inversion Hfield; subst current'.
  rewrite <- Hsame in Hu.
  pose proof (GET_found env' req' w' current u Hs Hne Hu Hin Hf Hf') as HG.
  set (rows := order_by asc (of_session u (messages w'))) in *.
  assert (forall r, In r (messages w') -> msg_sessionId r = u -> In r rows)
    as Hrows.
  { intros r Hr Hru.
    apply (Permutation_in _ (Permutation_sym (order_by_perm asc _))).
    apply filter_In. split; [exact Hr|]. rewrite Hru. apply String.eqb_refl. }
  destruct (oldest_first_before rows _ _
              (order_by_asc_oldest_first _)
              (Hrows _ Huser eq_refl) (Hrows _ Hasst eq_refl) Hlt)
    as [l1 [l2 [l3 Hsplit]]].
  exists m, reply, u, rows, l1, l2, l3.
  rewrite Hb. simpl. auto.
Qed.

Lemma POST_then_GET_witness :
  exists m reply u rows l1 l2 l3,
    message_of_request (post (Some "And returns?") (Some open_session))
      = Some m /\
    field "reply"
          (body (NextResponse_json
                   [("reply", JString sample_reply);
                    ("sessionId", JString open_session)] 200))
      = Some (JString reply) /\
    GET calm_env (get (Some open_session))
        (snd (POST calm_env (post (Some "And returns?") (Some open_session))
                   seeded_world)) =
    (Returned (NextResponse_json [("messages", JRows rows)] 200),
     snd (POST calm_env (post (Some "And returns?") (Some open_session))
              seeded_world)) /\
    rows =
      (l1 ++ mkMessage (gen_random_uuid calm_env InsertUserMessage) u "user" m
                       (now calm_env InsertUserMessage)
          :: l2 ++ mkMessage (gen_random_uuid calm_env InsertAssistantMessage)
                             u "assistant" reply
                             (now calm_env InsertAssistantMessage)
          :: l3)%list.
Proof.
  apply (POST_then_GET calm_env
           (post (Some "And returns?") (Some open_session)) seeded_world
           (NextResponse_json [("reply", JString sample_reply);
                               ("sessionId", JString open_session)] 200)
           (snd (POST calm_env (post (Some "And returns?") (Some open_session))
                      seeded_world))
           calm_env (get (Some open_session)) open_session).
  - vm_compute. reflexivity.
  - reflexivity.
  - reflexivity.
  - reflexivity.
  - discriminate.
  - reflexivity.
  - reflexivity.
  - reflexivity.
  - simpl. lia.
Defined.

(* ================================================================== *)
(** * The schema's constraints are kept *)

Lemma NoDup_snoc {A : Type} (l : list A) (x : A) :
  NoDup l -> ~ In x l -> NoDup (l ++ [x]).
Proof.
  intros Hl Hx. apply NoDup_app; [exact Hl | repeat constructor; auto |].
  intros a Ha [<-|[]]. contradiction.
Qed.

(** Resolution keeps the primary key of [sessions]. *)
Lemma currentSessionId_unique env sid w current w1 :
  currentSessionId env sid w = (Returned current, w1) ->
  sessions_unique w -> sessions_unique w1.
Proof.
  unfold sessions_unique. intros H Hu.
  apply currentSessionId_returned in H as [_ [_ H]].
  destruct H as [[_ [_ [Hn ->]]] | [supplied [u [_ [_ [_ H]]]]]].
  - rewrite map_app. now apply NoDup_snoc.
  - destruct H as [[_ [_ ->]] | [[Hn [_ ->]] | [_ [_ [_ [Hn ->]]]]]].
    + exact Hu.
    + rewrite map_app. now apply NoDup_snoc.
    + rewrite map_app. now apply NoDup_snoc.
Qed.

Lemma currentSessionId_ids env sid w current w1 :
  currentSessionId env sid w = (Returned current, w1) ->
  forall i, In i (map sess_id (sessions w)) ->
            In i (map sess_id (sessions w1)).
Proof.
  intros H i Hi.
  destruct (currentSessionId_world _ _ _ _ _ H) as [ns [-> _]].
  rewrite map_app. apply in_or_app. now left.
Qed.

(** X10: [POST] keeps the constraints of the schema.  If no two sessions
    share an id and every message belongs to a session, and the rows other
    requests commit belong to sessions too, the same holds after the
    request.  If moreover no two messages share an id, counting the rows
    of other requests, and the id drawn for the user message is not among
    those, no two messages share an id afterwards. *)
Theorem POST_keeps_schema env req w :
  sessions_unique w ->
  messages_reference_sessions w ->
  (forall m, In m (concurrent env) ->
             In (msg_sessionId m) (map sess_id (sessions w))) ->
  sessions_unique (snd (POST env req w)) /\
  messages_reference_sessions (snd (POST env req w)) /\
  (NoDup (map msg_id (messages w ++ concurrent env)) ->
   ~ In (gen_random_uuid env InsertUserMessage)
        (map msg_id (concurrent env)) ->
   messages_unique (snd (POST env req w))).
Proof.
  intros Hsu Hrefs Hconc.
  unfold messages_unique, messages_reference_sessions.
  assert (NoDup (map msg_id (messages w ++ concurrent env)) ->
          NoDup (map msg_id (messages w))) as Hnd0.
  { rewrite map_app. intros H. now apply NoDup_app_remove_r in H. }
  assert (forall row,
             NoDup (map msg_id (messages w ++ concurrent env)) ->
             ~ In (msg_id row) (map msg_id (messages w)) ->
             ~ In (msg_id row) (map msg_id (concurrent env)) ->
             NoDup (map msg_id ((messages w ++ [row]) ++ concurrent env)))
    as Hnd1.
  { intros row H Hn1 Hn2. rewrite <- app_assoc. simpl.
    rewrite map_app. simpl.
    apply (proj2 (NoDup_Add (Add_app (msg_id row) (map msg_id (messages w))
                                     (map msg_id (concurrent env))))).
    rewrite <- map_app. split; [exact H|].
    rewrite map_app. intros Hin.
    apply in_app_or in Hin as [Hin|Hin]; contradiction. }
  assert (forall current w1 row,
             currentSessionId env current w = (Returned row, w1) ->
             sessions_unique w1 /\
             (forall x, In x (messages w ++ concurrent env) ->
                        In (msg_sessionId x) (map sess_id (sessions w1))))
    as Hres.
  { intros sid w1 current Hc. split.
    - eapply currentSessionId_unique; eauto.
    - intros x Hx. eapply currentSessionId_ids; eauto.
      apply in_app_or in Hx as [Hx|Hx]; auto. }
  destruct (POST_paths env req w)
    as [[e [_ H]] | [[request [_ [_ H]]] | [[request [m [e [_ [_ [_ H]]]]]]
       | [[request [m [cur [w1 [e [_ [_ [Hc [_ H]]]]]]]]]
       | [[request [m [cur [w1 [row [w2 [e [_ [_ [Hc [Hi H]]]]]]]]]]]
       | [m [current [row [previous [at_read Hr]]]]]]]]]].
  - rewrite H, on_error_eq. simpl. auto.
  - rewrite H. simpl. auto.
  - rewrite H, on_error_eq. simpl. auto.
  - rewrite H, on_error_eq. simpl.
    pose proof (currentSessionId_returned _ _ _ _ _ Hc) as [Hm _].
    destruct (Hres _ _ _ Hc) as [Hsu1 Hrefs1].
    split; [exact Hsu1|]. split.
    + intros x Hx. rewrite Hm in Hx. apply Hrefs1, in_or_app. now left.
    + rewrite Hm. auto.
  - rewrite H, on_error_eq. simpl.
    pose proof (currentSessionId_returned _ _ _ _ _ Hc) as [Hm _].
    destruct (Hres _ _ _ Hc) as [Hsu1 Hrefs1].
    apply insert_messages_returned in Hi
      as [_ [_ [Hin [Hfresh [Hrow ->]]]]]. simpl.
    split; [exact Hsu1|]. split.
    + intros x Hx. rewrite Hm in Hx.
      apply in_app_or in Hx as [Hx|Hx];
        [apply in_app_or in Hx as [Hx|[<-|[]]]|].
      * apply Hrefs1, in_or_app. now left.
      * exact Hin.
      * apply Hrefs1, in_or_app. now right.
    + intros Hnd Hgen. rewrite Hm. apply Hnd1; auto.
      * now rewrite <- Hm.
      * rewrite Hrow. exact Hgen.
  - rewrite (POST_reaches _ _ _ _ _ _ _ _ Hr).
    destruct Hr as [request [w1 [w2 [Hj [Hm' [Hne [Hc [Hi [Ho Hp]]]]]]]]].
    pose proof (currentSessionId_returned _ _ _ _ _ Hc) as [Hm _].
    destruct (Hres _ _ _ Hc) as [Hsu1 Hrefs0].
    apply insert_messages_returned in Hi
      as [_ [_ [Hin [Hfresh [Hrow ->]]]]].
    unfold others_commit in Ho. inversion Ho; subst at_read; clear Ho.
    simpl in *.
    assert (forall x, In x ((messages w1 ++ [row]) ++ concurrent env) ->
                      In (msg_sessionId x) (map sess_id (sessions w1)))
      as Hrefs1.
    { intros x Hx. rewrite Hm in Hx.
      apply in_app_or in Hx as [Hx|Hx];
        [apply in_app_or in Hx as [Hx|[<-|[]]]|].
      - apply Hrefs0, in_or_app. now left.
      - exact Hin.
      - apply Hrefs0, in_or_app. now right. }
    assert (NoDup (map msg_id (messages w ++ concurrent env)) ->
            ~ In (gen_random_uuid env InsertUserMessage)
                 (map msg_id (concurrent env)) ->
            NoDup (map msg_id ((messages w1 ++ [row]) ++ concurrent env)))
      as Hmu1.
    { intros Hnd Hgen. rewrite Hm. apply Hnd1; auto.
      - now rewrite <- Hm.
      - rewrite Hrow. exact Hgen. }
    match goal with
    | |- context [complete env current m previous ?wr] =>
        pose proof (complete_cases env current m previous wr) as Hcc
    end.
    simpl in Hcc.
    destruct (generate env (history previous m) m) as [reply|e].
    + match type of Hcc with
      | context [insert_messages ?a1 ?a2 ?a3 ?a4 ?a5 ?a6] =>
          destruct (insert_messages a1 a2 a3 a4 a5 a6)
            as [[row'|e] w''] eqn:E
      end.
      * rewrite Hcc. simpl.
        apply insert_messages_returned in E
          as [_ [_ [Hin' [Hfresh' [_ ->]]]]]. simpl in *.
        split; [exact Hsu1|]. split.
        -- intros x Hx.
           apply in_app_or in Hx as [Hx|[<-|[]]];
             [now apply Hrefs1 | exact Hin'].
        -- intros Hnd Hgen.
           rewrite map_app. apply NoDup_snoc; [now apply Hmu1 | exact Hfresh'].
      * rewrite Hcc, on_error_eq. simpl. auto.
    + rewrite Hcc, on_error_eq. simpl. auto.
Qed.

Lemma POST_keeps_schema_witness :
  sessions_unique
    (snd (POST calm_env (post (Some "And returns?") (Some open_session))
               seeded_world)) /\
  messages_reference_sessions
    (snd (POST calm_env (post (Some "And returns?") (Some open_session))
               seeded_world)) /\
  (NoDup (map msg_id (messages seeded_world ++ concurrent calm_env)) ->
   ~ In (gen_random_uuid calm_env InsertUserMessage)
        (map msg_id (concurrent calm_env)) ->
   messages_unique
     (snd (POST calm_env (post (Some "And returns?") (Some open_session))
                seeded_world))).
Proof.
  apply (POST_keeps_schema calm_env
           (post (Some "And returns?") (Some open_session)) seeded_world).
  - unfold sessions_unique. simpl. repeat constructor. simpl. tauto.
  - intros m Hm. simpl in Hm. simpl.
    repeat (destruct Hm as [<-|Hm]; [now left|]). contradiction.
  - intros m [].
Defined.

(* ================================================================== *)
(** * The window of a request that is not overtaken *)

(** A row newer than every row of [l], appended to [l], sorts first and
    leaves the order of the others as it was. *)
Lemma order_by_desc_newest_last (l : list Message) (row : Message) :
  all_older row l ->
  order_by desc (l ++ [row]) = row :: order_by desc l.
Proof.
  unfold order_by. rewrite fold_right_app. simpl.
  induction 1 as [|x l Hx Hl IH]; simpl; [reflexivity|].
  change (fold_right (insert_row desc) [row] l)
    with (fold_right (insert_row desc) (insert_row desc row []) l) in IH.
  simpl in IH. rewrite IH. simpl. unfold desc at 1.
  assert ((msg_createdAt row <=? msg_createdAt x) = false) as ->
      by (apply Z.leb_gt; exact Hx).
  reflexivity.
Qed.

(* ================================================================== *)
(** * The seven cases of the other [catch] block *)

Lemma is_status_spec (s : option Z) (n : Z) :
  is_status s n = true <-> s = Some n.
Proof.
  unfold is_status. destruct s as [k|].
  - rewrite Z.eqb_eq. split; [now intros -> | now intros [= ->]].
  - split; discriminate.
Qed.

Lemma quota_condition (s : string) (st : option Z) :
  includes s "quota" || includes s "exhausted" || includes s "billing"
  || includes s "insufficient" || is_status st 402 = true
  <-> mentions_quota s \/ st = Some 402.
Proof.
  unfold mentions_quota.
  rewrite !orb_true_iff, !includes_occurs, is_status_spec. tauto.
Qed.

Lemma credentials_condition (s : string) (st : option Z) :
  includes s "api_key" || includes s "api key" || includes s "invalid key"
  || includes s "unauthorized" || includes s "authentication"
  || is_status st 401 || is_status st 403 = true
  <-> mentions_credentials s \/ st = Some 401 \/ st = Some 403.
Proof.
  unfold mentions_credentials.
  rewrite !orb_true_iff, !includes_occurs, !is_status_spec. tauto.
Qed.

Lemma rate_condition (s : string) (st : option Z) :
  includes s "rate" || includes s "limit" || includes s "too many"
  || is_status st 429 = true
  <-> mentions_rate s \/ st = Some 429.
Proof.
  unfold mentions_rate.
  rewrite !orb_true_iff, !includes_occurs, is_status_spec. tauto.
Qed.

Lemma not_true_false (b : bool) : ~ b = true -> b = false.
Proof. now destruct b. Qed.

(** X12: the quota rule comes first.  An error whose lower-cased text
    mentions quota, exhausted, billing or insufficient, or whose status
    is 402, is answered with status 503 and the fixed text of the first
    rule, whatever else the text mentions. *)
Theorem error_guardrails_quota toLowerCase error :
  mentions_quota (toLowerCase (error_text error))
  \/ errorStatus error = Some 402 ->
  error_guardrails toLowerCase error = (msg_unavailable, 503).
Proof.
  intros H. apply quota_condition in H.
  unfold error_guardrails. now rewrite H.
Qed.

Lemma error_guardrails_quota_witness :
  error_guardrails ascii_lower
    (CaughtObject (mkError (Some "Unauthorized: quota exceeded") (Some 401)
                           None) None "Error")
  = (msg_unavailable, 503).
Proof.
  apply (error_guardrails_quota ascii_lower).
  left. left. apply includes_occurs. reflexivity.
Defined.

(** X13: an error whose lower-cased text mentions api_key, api key,
    invalid key, unauthorized or authentication, or whose status is 401
    or 403, is answered with status 503 and the fixed configuration
    text, provided the quota rule does not apply to it. *)
Theorem error_guardrails_credentials toLowerCase error :
  mentions_credentials (toLowerCase (error_text error))
  \/ errorStatus error = Some 401 \/ errorStatus error = Some 403 ->
  ~ mentions_quota (toLowerCase (error_text error)) ->
  errorStatus error <> Some 402 ->
  error_guardrails toLowerCase error = (msg_config, 503).
Proof.
  intros H Hq Hs. apply credentials_condition in H.
  unfold error_guardrails.
  match goal with
  | |- (if ?c then _ else _) = _ => assert (c = false) as ->
  end.
  { apply not_true_false. intros Hc. apply quota_condition in Hc. tauto. }
  now rewrite H.
Qed.

Lemma error_guardrails_credentials_witness :
  error_guardrails ascii_lower
    (CaughtObject (mkError (Some "API_KEY_INVALID") None None) (Some 400)
                  "Error: API_KEY_INVALID")
  = (msg_config, 503).
Proof.
  apply (error_guardrails_credentials ascii_lower).
  - left. left. apply includes_occurs. reflexivity.
  - unfold mentions_quota. rewrite <- !includes_occurs. vm_compute.
    intuition discriminate.
  - discriminate.
Defined.

(** X14: an error whose lower-cased text mentions rate, limit or too
    many, or whose status is 429, is answered with status 429 and the
    fixed rate-limit text, provided neither the quota rule nor the
    credentials rule applies to it; later rules (timeout, model, safety)
    do not matter. *)
Theorem error_guardrails_rate toLowerCase error :
  mentions_rate (toLowerCase (error_text error))
  \/ errorStatus error = Some 429 ->
  ~ mentions_quota (toLowerCase (error_text error)) ->
  ~ mentions_credentials (toLowerCase (error_text error)) ->
  errorStatus error <> Some 402 ->
  errorStatus error <> Some 401 -> errorStatus error <> Some 403 ->
  error_guardrails toLowerCase error = (msg_rate, 429).
Proof.
  intros H Hq Hc Hs2 Hs1 Hs3. apply rate_condition in H.
  unfold error_guardrails.
  match goal with
  | |- (if ?c then _ else _) = _ => assert (c = false) as ->
  end.
  { apply not_true_false. intros Hx. apply quota_condition in Hx. tauto. }
  match goal with
  | |- (if ?c then _ else _) = _ => assert (c = false) as ->
  end.
  { apply not_true_false. intros Hx. apply credentials_condition in Hx.
    tauto. }
  now rewrite H.
Qed.

Lemma error_guardrails_rate_witness :
  error_guardrails ascii_lower
    (CaughtObject (mkError (Some "Request timeout: Rate Limit Exceeded")
                           None None) None "Error")
  = (msg_rate, 429).
Proof.
  apply (error_guardrails_rate ascii_lower).
  - left. left. apply includes_occurs. reflexivity.
  - unfold mentions_quota. rewrite <- !includes_occurs. vm_compute.
    intuition discriminate.
  - unfold mentions_credentials. rewrite <- !includes_occurs. vm_compute.
    intuition discriminate.
  - discriminate.
  - discriminate.
  - discriminate.
Defined.

(** X15: whatever is caught, the answer of the other [catch] block is
    one of seven fixed pairs of text and status; the status is 503, 429,
    504, 400 or 500, and the text of the error itself is never the
    answer's. *)
Theorem error_guardrails_range toLowerCase error :
  In (error_guardrails toLowerCase error)
     [(msg_unavailable, 503); (msg_config, 503); (msg_rate, 429);
      (msg_took_too_long, 504); (msg_model_unavailable, 503);
      (msg_blocked, 400); (msg_went_wrong, 500)].
Proof.
  unfold error_guardrails.
  repeat match goal with
         | |- In (if ?c then _ else _) _ => destruct c
         end; simpl; auto 10.
Qed.

(* ================================================================== *)
(** * The input box *)

(** [trimStart] removes a run of white space from the front. *)
Lemma trimStart_split (s : JsString) :
  exists front,
    s = (front ++ trimStart s)%list /\ forallb is_white_space front = true.
Proof.
  induction s as [|c s [front [Hs Hf]]]; simpl.
  - now exists [].
  - destruct (is_white_space c) eqn:E.
    + exists (c :: front). simpl. rewrite E, Hf. split; [now f_equal|auto].
    + now exists [].
Qed.

Lemma trimStart_head (s : JsString) (c : N) (rest : JsString) :
  trimStart s = c :: rest -> is_white_space c = false.
Proof.
  induction s as [|d s IH]; simpl; [discriminate|].
  destruct (is_white_space d) eqn:E; [exact IH|].
  now intros [= <- _].
Qed.

Lemma trimStart_nil (s : JsString) :
  trimStart s = [] <-> forallb is_white_space s = true.
Proof.
  induction s as [|c s IH]; simpl; [tauto|].
  destruct (is_white_space c); simpl; [exact IH|].
  split; discriminate.
Qed.

Lemma trim_nil (s : JsString) :
  trim s = [] <-> forallb is_white_space s = true.
Proof.
  unfold trim, trimEnd. split.
  - intros H. apply (f_equal (@rev N)) in H. rewrite rev_involutive in H.
    simpl in H. apply trimStart_nil in H.
    rewrite forallb_forall in H.
    destruct (trimStart_split s) as [front [Hs Hf]].
    rewrite Hs. rewrite forallb_app, Hf. simpl.
    apply forallb_forall. intros x Hx. apply H. now apply -> in_rev.
  - intros H. apply trimStart_nil in H. now rewrite H.
Qed.

(** What [trim] returns starts and ends with a code unit that is not
    white space, and is no longer than the string. *)
Lemma trim_ends (s : JsString) :
  (forall c rest, trim s = c :: rest -> is_white_space c = false) /\
  (forall front c, trim s = (front ++ [c])%list -> is_white_space c = false) /\
  (length (trim s) <= length s)%nat.
Proof.
  unfold trim, trimEnd.
  destruct (trimStart_split s) as [f1 [Hs1 _]].
  destruct (trimStart_split (rev (trimStart s))) as [f2 [Hs2 _]].
  set (t := trimStart s) in *.
  set (d := trimStart (rev t)) in *.
  assert (t = (rev d ++ rev f2)%list) as Ht.
  { rewrite <- (rev_involutive t), Hs2, rev_app_distr. reflexivity. }
  split; [|split].
  - intros c rest Hc.
    destruct t as [|c' t'] eqn:Et.
    + destruct (rev d); discriminate.
    + rewrite Hc in Ht. simpl in Ht. inversion Ht; subst c'.
      now apply (trimStart_head s c t').
  - intros front c Hc.
    apply (f_equal (@rev N)) in Hc.
    rewrite rev_involutive, rev_app_distr in Hc. simpl in Hc.
    now apply (trimStart_head (rev t) c (rev front)).
  - apply (f_equal (@length N)) in Ht, Hs1.
    rewrite length_app in Ht, Hs1. lia.
Qed.

(** X16: after a change of the input the banner is shown exactly when
    the new text is longer than 500 code units, whatever was shown
    before; the text itself is kept in full, and the loading flag is not
    touched. *)
Theorem handleInputChange_banner (val : JsString) (page : Page) :
  show (errorConfig (handleInputChange val page)) = (500 <? length val)%nat /\
  inputValue (handleInputChange val page) = val /\
  isLoading (handleInputChange val page) = isLoading page /\
  ((length val <= 500)%nat -> show (errorConfig page) = true ->
   errorConfig (handleInputChange val page) = mkErrorConfig false "").
Proof.
  unfold handleInputChange. simpl.
  destruct (500 <? length val)%nat eqn:E; simpl.
  - repeat split. intros H. apply Nat.ltb_lt in E. lia.
  - destruct (show (errorConfig page)) eqn:Es; simpl; auto.
    repeat split; auto. discriminate.
Qed.

(** X17: [handleSend] makes a request exactly when no request is under
    way, the input is at most 500 code units long and is not all white
    space.  The message of the request is the trimmed input: it is not
    empty, it neither starts nor ends with white space, and it is at most
    500 code units long.  The input is cleared and the loading flag set. *)
Theorem handleSend_request (page : Page) :
  (forall userText,
      snd (handleSend page) = Some userText ->
      userText = trim (inputValue page) /\
      userText <> [] /\
      (forall c rest, userText = c :: rest -> is_white_space c = false) /\
      (forall front c, userText = (front ++ [c])%list ->
                       is_white_space c = false) /\
      (length userText <= 500)%nat /\
      fst (handleSend page) = mkPage [] true (errorConfig page))
  /\
  ((exists userText, snd (handleSend page) = Some userText) <->
   isLoading page = false /\
   (length (inputValue page) <= 500)%nat /\
   forallb is_white_space (inputValue page) = false).
Proof.
  unfold handleSend.
  destruct (trim (inputValue page)) as [|c t] eqn:Et; simpl.
  - split; [discriminate|]. split.
    + intros [u H]. discriminate.
    + intros [_ [_ H]]. apply trim_nil in Et. congruence.
  - assert (forallb is_white_space (inputValue page) = false) as Hw.
    { destruct (forallb is_white_space (inputValue page)) eqn:E;
        [|reflexivity].
      apply trim_nil in E. congruence. }
    destruct (isLoading page); simpl.
    + split; [discriminate|]. split.
      * intros [u H]. discriminate.
      * intros [H _]. discriminate.
    + destruct (500 <? length (inputValue page))%nat eqn:El; simpl.
      * split; [discriminate|]. split.
        -- intros [u H]. discriminate.
        -- intros [_ [H _]]. apply Nat.ltb_lt in El. lia.
      * apply Nat.ltb_ge in El. split.
        -- intros u [= <-].
           destruct (trim_ends (inputValue page)) as [Hh [Hl Hlen]].
           rewrite Et in Hh, Hl, Hlen.
           repeat split; auto; try discriminate. lia.
        -- split; [auto|]. intros _. eauto.
Qed.

(** X18: the send button is disabled exactly when [handleSend] would make
    no request, so a send by the Enter key passes the same checks as a
    click. *)
Theorem send_disabled_agrees (page : Page) :
  send_disabled page = true <-> snd (handleSend page) = None.
Proof.
  unfold send_disabled, handleSend.
  destruct (trim (inputValue page)); simpl; [tauto|].
  destruct (isLoading page); simpl; [tauto|].
  destruct (500 <? length (inputValue page))%nat; simpl; [tauto|].
  split; discriminate.
Qed.

Lemma handleInputChange_banner_witness :
  errorConfig (handleInputChange [104; 105]%N sample_page)
  = mkErrorConfig false "".
Proof.
  apply (handleInputChange_banner [104; 105]%N sample_page).
  - simpl. lia.
  - reflexivity.
Defined.

Lemma handleSend_request_witness :
  [104; 105]%N = trim (inputValue sample_page) /\
  [104; 105]%N <> [] /\
  (forall c rest, [104; 105]%N = c :: rest -> is_white_space c = false) /\
  (forall front c, [104; 105]%N = (front ++ [c])%list ->
                   is_white_space c = false) /\
  (length [104; 105]%N <= 500)%nat /\
  fst (handleSend sample_page) = mkPage [] true (errorConfig sample_page).
Proof.
  apply (proj1 (handleSend_request sample_page) [104; 105]%N).
  reflexivity.
Defined.

Lemma POST_always_answers_witness :
  exists response,
    fst (POST refusing_env (post (Some "hi") None) empty_world)
      = Returned response /\
    In (status response) [200; 400; 429; 500; 504] /\
    (status response <> 200 ->
     exists msg,
       body response = [("error", JString msg)] /\
       In msg [msg_generic; msg_config; msg_rate; msg_timeout;
               "Message is required"]).
Proof.
  apply (POST_always_answers refusing_env (post (Some "hi") None) empty_world).
Defined.

(* ================================================================== *)
(** * The rows of a session *)

Lemma filter_partition {A : Type} (f : A -> bool) (l : list A) :
  Permutation l (filter f l ++ filter (fun x => negb (f x)) l).
Proof.
  induction l as [|x l IH]; simpl; [constructor|].
  destruct (f x); simpl.
  - now constructor.
  - now apply Permutation_cons_app.
Qed.

(** The filter of the two reads selects the rows of the session. *)
Lemma of_session_rows (u : string) (table : list Message) :
  session_rows u table (of_session u table).
Proof.
  exists (filter (fun x => negb (String.eqb (msg_sessionId x) u)) table).
  split; [apply filter_partition|]. split.
  - apply Forall_forall. intros x Hx. unfold of_session in Hx.
    apply filter_In in Hx as [_ Hx]. now apply String.eqb_eq.
  - apply Forall_forall. intros x Hx.
    apply filter_In in Hx as [_ Hx].
    apply negb_true_iff in Hx. now apply String.eqb_neq.
Qed.

(** Any ordering of the rows of the session is a list of its rows. *)
Lemma session_rows_perm (u : string) (table rows rows' : list Message) :
  session_rows u table rows -> Permutation rows' rows ->
  session_rows u table rows'.
Proof.
  intros [others [Hp [Hr Ho]]] Hperm. exists others. split; [|split].
  - eapply perm_trans; [exact Hp|].
    apply Permutation_app_tail. now apply Permutation_sym.
  - eapply Permutation_Forall; [apply Permutation_sym, Hperm | exact Hr].
  - exact Ho.
Qed.

(** The rows of a session, as a list, are determined up to their order. *)
Lemma session_rows_unique (u : string) (table rows : list Message) :
  session_rows u table rows -> Permutation rows (of_session u table).
Proof.
  intros [others [Hp [Hr Ho]]].
  assert (of_session u (rows ++ others) = rows) as E.
  { rewrite of_session_app.
    assert (of_session u rows = rows) as ->.
    { unfold of_session. apply forallb_filter_id. apply forallb_forall.
      rewrite Forall_forall in Hr. intros x Hx.
      apply String.eqb_eq. now apply Hr. }
    assert (of_session u others = []) as ->; [|apply app_nil_r].
    unfold of_session. clear Hp. induction Ho as [|x l Hx Hl IH]; simpl.
    - reflexivity.
    - apply String.eqb_neq in Hx. now rewrite Hx. }
  rewrite <- E at 1. unfold of_session.
  apply Permutation_sym.
  clear E Hr Ho. induction Hp; simpl.
  - constructor.
  - destruct (String.eqb (msg_sessionId x) u); [now constructor|assumption].
  - destruct (String.eqb (msg_sessionId x) u),
             (String.eqb (msg_sessionId y) u);
      try apply Permutation_refl. apply perm_swap.
  - eapply perm_trans; eassumption.
Qed.

(* ================================================================== *)
(** * A request without a message *)

(** C7, as the code has it: a request that carries no message, or an
    empty one, writes nothing.  When its body parses, the answer is the
    status 400 of line 36; when line 33 throws, because there is no body
    or the body is not a JSON object, the answer is the one the [catch]
    block gives for that error. *)
Theorem POST_message_required env req w :
  message_of_request req = None \/ message_of_request req = Some "" ->
  snd (POST env req w) = w /\
  (forall request,
      json req = Returned request ->
      fst (POST env req w) =
      Returned (NextResponse_json [("error", JString "Message is required")]
                                  400)) /\
  (forall e,
      json req = Thrown e ->
      fst (POST env req w) =
      Returned (NextResponse_json [("error", JString (fst (classify e)))]
                                  (snd (classify e)))).
Proof.
  intros Hm. unfold message_of_request in Hm.
  destruct (json req) as [request|e] eqn:Hj.
  - assert (truthy (message request) = false) as Ht
        by (destruct Hm as [-> | ->]; reflexivity).
    rewrite (POST_invalid env req w request Hj Ht). simpl.
    split; [reflexivity|]. split; [reflexivity|]. discriminate.
  - assert (POST env req w = on_error e w) as ->.
    { unfold POST, try_catch. unfold bind at 1, await. now rewrite Hj. }
    rewrite on_error_eq. simpl.
    split; [reflexivity|]. split; [discriminate|]. now intros e' [= <-].
Qed.

Lemma POST_message_required_witness :
  snd (POST calm_env (post (Some "") (Some open_session)) seeded_world)
    = seeded_world /\
  (forall request,
      json (post (Some "") (Some open_session)) = Returned request ->
      fst (POST calm_env (post (Some "") (Some open_session)) seeded_world) =
      Returned (NextResponse_json [("error", JString "Message is required")]
                                  400)) /\
  (forall e,
      json (post (Some "") (Some open_session)) = Thrown e ->
      fst (POST calm_env (post (Some "") (Some open_session)) seeded_world) =
      Returned (NextResponse_json [("error", JString (fst (classify e)))]
                                  (snd (classify e)))).
Proof.
  apply (POST_message_required calm_env (post (Some "") (Some open_session))
           seeded_world).
  right. reflexivity.
Defined.

(** C7 as stated fails: a request without a body has no message, line 33
    throws inside the [try], and the answer is the status 500 of the
    [catch] block, not 400.  Nothing is written. *)
Lemma POST_without_body :
  message_of_request (mkRequest (Thrown no_body_error) None) = None /\
  POST calm_env (mkRequest (Thrown no_body_error) None) seeded_world =
  (Returned (NextResponse_json [("error", JString msg_generic)] 500),
   seeded_world).
Proof.
  split; [reflexivity|]. vm_compute. reflexivity.
Qed.

(* ================================================================== *)
(** * The history of a session *)

(** C8, as the code has it.  Without a [sessionId] the answer is the
    status 400.  When the lookup or the read throws, as the lookup does
    for a [sessionId] that is not the text of a uuid, the answer is the
    status 500.  Otherwise a session the table does not have gives status
    200 and no rows, and a session it has gives status 200 and all the
    rows of the session, oldest first.  When those rows have distinct
    [createdAt], they are the rows of the descending read in reverse, and
    the descending read with a limit is a prefix of that.  The world is
    left as it was in every case. *)
Theorem GET_history env req w :
  (truthy (searchParams_sessionId req) = false ->
   GET env req w =
   (Returned (NextResponse_json
                [("error", JString "Session ID is required")] 400), w))
  /\
  (forall supplied,
      searchParams_sessionId req = Some supplied -> supplied <> "" ->
      (uuid_in env supplied = None
       \/ fault env FindSessionForHistory <> None ->
       GET env req w =
       (Returned (NextResponse_json
                    [("error", JString "Failed to fetch chat history.")] 500),
        w))
      /\
      (forall u,
          uuid_in env supplied = Some u ->
          fault env FindSessionForHistory = None ->
          (~ In u (map sess_id (sessions w)) ->
           GET env req w =
           (Returned (NextResponse_json [("messages", JRows [])] 200), w))
          /\
          (In u (map sess_id (sessions w)) ->
           fault env SelectHistory <> None ->
           GET env req w =
           (Returned (NextResponse_json
                        [("error", JString "Failed to fetch chat history.")]
                        500), w))
          /\
          (In u (map sess_id (sessions w)) ->
           fault env SelectHistory = None ->
           exists rows,
             GET env req w =
             (Returned (NextResponse_json [("messages", JRows rows)] 200), w)
             /\ session_rows u (messages w) rows
             /\ oldest_first rows
             /\ (distinct_createdAt rows ->
                 forall limit recent,
                   fault env SelectRecent = None ->
                   fst (select_messages env SelectRecent supplied desc limit w)
                     = Returned recent ->
                   match limit with
                   | Some n => recent = firstn n (rev rows)
                   | None => rows = rev recent
                   end)))).
Proof.
  split.
  - intros Ht. unfold GET, try_catch.
    destruct (searchParams_sessionId req) as [s|]; [|reflexivity].
    now rewrite Ht.
  - intros supplied Hs Hne.
    assert (truthy (Some supplied) = true) as Ht
        by (apply truthy_spec; now exists supplied).
    split.
    + intros Hbad. unfold GET, try_catch. rewrite Hs, Ht.
      unfold bind at 1, select_sessions, statement.
      destruct (fault env FindSessionForHistory) as [e|]; [reflexivity|].
      destruct Hbad as [-> | Hf]; [reflexivity | congruence].
    + intros u Hu Hf.
      assert (select_sessions env FindSessionForHistory supplied w
              = (Returned (firstn 1 (filter
                                       (fun s => String.eqb (sess_id s) u)
                                       (sessions w))), w)) as Hsel
          by (unfold select_sessions, statement; now rewrite Hf, Hu).
      split; [|split].
      * intros Hn. unfold GET, try_catch. rewrite Hs, Ht.
        unfold bind at 1. rewrite Hsel, find_session_length.
        assert (has_id u (map sess_id (sessions w)) = false) as ->;
          [|reflexivity].
        destruct (has_id u (map sess_id (sessions w))) eqn:E; [|reflexivity].
        apply has_id_In in E. contradiction.
      * intros Hin Hf'. unfold GET, try_catch. rewrite Hs, Ht.
        unfold bind at 1. rewrite Hsel, find_session_length.
        apply has_id_In in Hin. rewrite Hin. simpl.
        unfold bind at 1, select_messages, statement.
        destruct (fault env SelectHistory) as [e|]; [reflexivity|congruence].
      * intros Hin Hf'. exists (order_by asc (of_session u (messages w))).
        split; [|split; [|split]].
        -- unfold GET, try_catch. rewrite Hs, Ht.
           unfold bind at 1. rewrite Hsel, find_session_length.
           apply has_id_In in Hin. rewrite Hin. simpl.
           unfold bind at 1, select_messages, statement.
           now rewrite Hf', Hu.
        -- eapply session_rows_perm;
             [apply of_session_rows | apply order_by_perm].
        -- apply order_by_asc_oldest_first.
        -- intros Hd limit recent Hfr Hrec.
           assert (distinct_createdAt (of_session u (messages w))) as Hd'.
           { unfold distinct_createdAt in *.
             eapply Permutation_NoDup; [|exact Hd].
             apply Permutation_map, order_by_perm. }
           unfold select_messages, statement in Hrec.
           rewrite Hfr, Hu in Hrec. simpl in Hrec.
           rewrite (order_by_asc_rev_desc _ Hd'), rev_involutive.
           destruct limit; now inversion Hrec.
Qed.

Lemma GET_history_witness :
  (~ In open_session (map sess_id (sessions seeded_world)) ->
   GET calm_env (get (Some open_session)) seeded_world =
   (Returned (NextResponse_json [("messages", JRows [])] 200), seeded_world))
  /\
  (In open_session (map sess_id (sessions seeded_world)) ->
   fault calm_env SelectHistory <> None ->
   GET calm_env (get (Some open_session)) seeded_world =
   (Returned (NextResponse_json
                [("error", JString "Failed to fetch chat history.")] 500),
    seeded_world))
  /\
  (In open_session (map sess_id (sessions seeded_world)) ->
   fault calm_env SelectHistory = None ->
   exists rows,
     GET calm_env (get (Some open_session)) seeded_world =
     (Returned (NextResponse_json [("messages", JRows rows)] 200),
      seeded_world)
     /\ session_rows open_session (messages seeded_world) rows
     /\ oldest_first rows
     /\ (distinct_createdAt rows ->
         forall limit recent,
           fault calm_env SelectRecent = None ->
           fst (select_messages calm_env SelectRecent open_session desc limit
                                seeded_world) = Returned recent ->
           match limit with
           | Some n => recent = firstn n (rev rows)
           | None => rows = rev recent
           end)).
Proof.
  apply (proj2 (GET_history calm_env (get (Some open_session)) seeded_world)
               open_session).
  - reflexivity.
  - discriminate.
  - vm_compute. reflexivity.
  - reflexivity.
Defined.

(* ================================================================== *)
(** * The window, from the request to the provider *)

(** [complete] leaves [sessions] alone, and the only row it can add to
    [messages] is an assistant row. *)
Lemma complete_world env current m previous w :
  sessions (snd (complete env current m previous w)) = sessions w /\
  forall x, In x (messages (snd (complete env current m previous w))) ->
            In x (messages w) \/ msg_role x = "assistant".
Proof.
  pose proof (complete_cases env current m previous w) as H. simpl in H.
  destruct (generate env (history previous m) m) as [reply|e].
  - match type of H with
    | context [insert_messages ?a1 ?a2 ?a3 ?a4 ?a5 ?a6] =>
        destruct (insert_messages a1 a2 a3 a4 a5 a6) as [[row|e] w'] eqn:E
    end.
    + rewrite H. simpl.
      apply insert_messages_returned in E as [_ [_ [_ [_ [Hrow ->]]]]].
      simpl. split; [reflexivity|]. intros x Hx.
      apply in_app_or in Hx as [Hx|[<-|[]]]; [now left|].
      right. rewrite Hrow. reflexivity.
    + rewrite H, on_error_eq. simpl. auto.
  - rewrite H, on_error_eq. simpl. auto.
Qed.

(** The rows of a session in a table, as a condition on every row. *)
Lemma all_older_of_session (u : string) (row : Message) (l : list Message) :
  Forall (fun x => msg_sessionId x = u ->
                   msg_createdAt x < msg_createdAt row) l ->
  all_older row (of_session u l).
Proof.
  intros H. unfold all_older. apply Forall_forall. intros x Hx.
  unfold of_session in Hx. apply filter_In in Hx as [Hx Hu].
  rewrite Forall_forall in H. apply (H x Hx). now apply String.eqb_eq.
Qed.

(** C1, as the code has it.  Whenever [POST] calls the provider with
    history [h] and turn [m]: [m] is the message of the request; the
    session [current] is the one the request resolved to, its own
    [sessionId] or a session created by this request; the user message was
    stored as [row] under that session; [previous] is the seven most
    recent rows of that session, newest first, read after the append;
    [kept] is [previous] without its first row when that row has content
    [m], and all of [previous] otherwise; and [h] lists [kept] oldest
    first, a user row as role "user" and any other row as role "model".
    The message itself is not among the rows kept when [row] is the
    newest row of its session at the read. *)
Theorem POST_context_window env req w r w' h m :
  POST env req w = (r, w') ->
  provider_calls w' = (provider_calls w ++ [(h, m)])%list ->
  exists request current w1 u row rows previous kept,
    json req = Returned request /\ message request = Some m /\
    currentSessionId env (sessionId request) w = (Returned current, w1) /\
    (sessionId request = Some current \/
     ~ In current (map sess_id (sessions w)) /\
     In current (map sess_id (sessions w'))) /\
    uuid_in env current = Some u /\
    In u (map sess_id (sessions w')) /\
    row = mkMessage (gen_random_uuid env InsertUserMessage) u "user" m
                    (now env InsertUserMessage) /\
    In row (messages w') /\
    session_rows u (messages w ++ [row] ++ concurrent env) rows /\
    most_recent 7 rows previous /\
    (forall newest older,
        previous = newest :: older -> msg_content newest = m ->
        kept = older) /\
    (forall newest older,
        previous = newest :: older -> msg_content newest <> m ->
        kept = previous) /\
    (previous = [] -> kept = []) /\
    Forall2 provider_entry (rev kept) h /\
    (Forall (fun x => msg_sessionId x = u ->
                      msg_createdAt x < msg_createdAt row)
            (messages w ++ concurrent env) ->
     ~ In row kept).
Proof.
  intros HP Hcalls.
  destruct (POST_called _ _ _ _ _ _ _ HP Hcalls)
    as [current [row [previous [at_read [Hr [-> Hc]]]]]].
  destruct (reaches_provider_world _ _ _ _ _ _ _ _ Hr)
    as [request [u [w1 [Hj [Hm [_ [Hcur [Hu [Hin [Hrow [Hs [Hms [_ Hprev]]]]]]]]]]]]].
  assert (w' = snd (complete env current m previous at_read)) as Hw'
      by now rewrite <- Hc.
  destruct (complete_world env current m previous at_read) as [Hsess _].
  assert (sessions w' = sessions w1) as Hsw by (rewrite Hw', Hsess; exact Hs).
  exists request, current, w1, u, row,
         (of_session u (messages w ++ [row] ++ concurrent env)),
         previous, (historyMessages previous m).
  rewrite Hms in Hprev.
  split; [exact Hj|]. split; [exact Hm|]. split; [exact Hcur|]. split.
  { assert ({sessionId request = Some current}
            + {sessionId request <> Some current}) as [E|E]
        by (decide equality; apply string_dec).
    { now left. }
    right. rewrite Hsw.
    now apply (currentSessionId_sessions _ _ _ _ _ Hcur). }
  split; [exact Hu|]. split; [now rewrite Hsw|]. split; [exact Hrow|].
  split.
  { rewrite Hw'. apply complete_messages. rewrite Hms.
    apply in_or_app. right. now left. }
  split; [apply of_session_rows|].
  split; [subst previous; apply firstn_order_by_desc_most_recent|].
  split; [intros newest older -> Hcn; now apply historyMessages_dropped|].
  split; [intros newest older -> Hcn; now apply historyMessages_kept|].
  split; [now intros ->|].
  split; [apply history_entries|].
  intros Hold. rewrite Hprev.
  apply (window_without_appended u m (messages w) (concurrent env) row).
  - rewrite Hrow. reflexivity.
  - rewrite Hrow. reflexivity.
  - now apply all_older_of_session.
Qed.

Lemma POST_context_window_witness :
  exists request current w1 u row rows previous kept,
    json (post (Some "And returns?") (Some open_session)) = Returned request /\
    message request = Some "And returns?" /\
    currentSessionId calm_env (sessionId request) seeded_world
      = (Returned current, w1) /\
    (sessionId request = Some current \/
     ~ In current (map sess_id (sessions seeded_world)) /\
     In current
        (map sess_id
             (sessions (snd (POST calm_env
                                  (post (Some "And returns?")
                                        (Some open_session))
                                  seeded_world))))) /\
    uuid_in calm_env current = Some u /\
    In u (map sess_id
              (sessions (snd (POST calm_env
                                   (post (Some "And returns?")
                                         (Some open_session))
                                   seeded_world)))) /\
    row = mkMessage (gen_random_uuid calm_env InsertUserMessage) u "user"
                    "And returns?" (now calm_env InsertUserMessage) /\
    In row (messages (snd (POST calm_env
                                (post (Some "And returns?")
                                      (Some open_session))
                                seeded_world))) /\
    session_rows u (messages seeded_world ++ [row] ++ concurrent calm_env)
                 rows /\
    most_recent 7 rows previous /\
    (forall newest older,
        previous = newest :: older -> msg_content newest = "And returns?" ->
        kept = older) /\
    (forall newest older,
        previous = newest :: older -> msg_content newest <> "And returns?" ->
        kept = previous) /\
    (previous = [] -> kept = []) /\
    Forall2 provider_entry (rev kept) (map to_content seeded_messages) /\
    (Forall (fun x => msg_sessionId x = u ->
                      msg_createdAt x < msg_createdAt row)
            (messages seeded_world ++ concurrent calm_env) ->
     ~ In row kept).
Proof.
  apply (POST_context_window calm_env
           (post (Some "And returns?") (Some open_session)) seeded_world
           (fst (POST calm_env (post (Some "And returns?") (Some open_session))
                      seeded_world))
           (snd (POST calm_env (post (Some "And returns?") (Some open_session))
                      seeded_world))).
  - vm_compute. reflexivity.
  - vm_compute. reflexivity.
Defined.

(** C1 as stated fails in its last part: when another request commits a
    row to the session between the append and the read, the newest row
    read is not the message, nothing is dropped, and the history holds
    the entry of the message just sent, which is also the turn to answer.
    No earlier row of the session has that content. *)
Lemma POST_history_holds_message :
  Forall (fun x => msg_content x <> "And returns?") (messages seeded_world) /\
  msg_content late_reply <> "And returns?" /\
  exists h,
    provider_calls
      (snd (POST racing_env (post (Some "And returns?") (Some open_session))
                 seeded_world))
    = [(h, "And returns?")] /\
    In (to_content
          (mkMessage (gen_random_uuid racing_env InsertUserMessage)
                     open_session "user" "And returns?"
                     (now racing_env InsertUserMessage))) h.
Proof.
  split; [repeat constructor; discriminate|].
  split; [discriminate|].
  eexists. split; [vm_compute; reflexivity|].
  vm_compute. auto 10.
Qed.

(* ================================================================== *)
(** * A message of white space *)




(* ================================================================== *)
(** * The window of a request that is not overtaken, in full *)

(** X11: take a run that calls the provider with history [h] and turn
    [m] while no other request commits a row between the append and the
    read, and let [u] be the session under which the run stored the user
    message.  If every earlier row of that session is older than the
    stored one, [h] lists exactly the six most recent earlier rows of the
    session (all of them when there are fewer), oldest first. *)
Theorem POST_window_last_six env req w r w' h m u :
  POST env req w = (r, w') ->
  provider_calls w' = (provider_calls w ++ [(h, m)])%list ->
  concurrent env = [] ->
  In (mkMessage (gen_random_uuid env InsertUserMessage) u "user" m
                (now env InsertUserMessage)) (messages w') ->
  Forall (fun x => msg_sessionId x = u ->
                   msg_createdAt x < now env InsertUserMessage)
         (messages w) ->
  exists earlier kept,
    session_rows u (messages w) earlier /\
    most_recent 6 earlier kept /\
    h = map to_content (rev kept).
Proof.
  intros HP Hcalls Hnone Hstored Hold.
  destruct (POST_called _ _ _ _ _ _ _ HP Hcalls)
    as [current [row [previous [at_read [Hr [-> Hc]]]]]].
  pose proof Hr as [request [w1 [w2 [_ [_ [_ [Hcur [Hi _]]]]]]]].
  apply insert_messages_returned in Hi as [_ [_ [_ [Hfresh _]]]].
  pose proof (currentSessionId_returned _ _ _ _ _ Hcur) as [Hm1 _].
  rewrite Hm1 in Hfresh.
  destruct (reaches_provider_world _ _ _ _ _ _ _ _ Hr)
    as [_ [u0 [_ [_ [_ [_ [_ [Hu [_ [Hrow [_ [Hms [_ Hprev]]]]]]]]]]]]].
  assert (u = u0) as ->.
  { assert (w' = snd (complete env current m previous at_read)) as Hw'
        by now rewrite <- Hc.
    rewrite Hw' in Hstored.
    apply (proj2 (complete_world env current m previous at_read))
      in Hstored as [Hstored|Hrole]; [|discriminate Hrole].
    rewrite Hms, Hnone, app_nil_r in Hstored.
    apply in_app_or in Hstored as [Hstored|[Hstored|[]]].
    - exfalso. apply Hfresh. rewrite Hrow. simpl.
      apply (in_map msg_id) in Hstored. exact Hstored.
    - rewrite Hrow in Hstored. now inversion Hstored. }
  exists (of_session u0 (messages w)),
         (firstn 6 (order_by desc (of_session u0 (messages w)))).
  split; [apply of_session_rows|].
  split; [apply firstn_order_by_desc_most_recent|].
  rewrite Hms, Hnone, app_nil_r, of_session_app in Hprev.
  assert (msg_sessionId row = u0) as Eu by (rewrite Hrow; reflexivity).
  change (of_session u0 [row])
    with (if String.eqb (msg_sessionId row) u0 then [row] else []) in Hprev.
  rewrite Eu, String.eqb_refl in Hprev.
  rewrite order_by_desc_newest_last in Hprev.
  2:{ apply all_older_of_session. rewrite Hrow. exact Hold. }
  rewrite firstn_cons in Hprev. unfold history. rewrite Hprev.
  rewrite historyMessages_dropped; [reflexivity|].
  rewrite Hrow. reflexivity.
Qed.

Lemma POST_window_last_six_witness :
  exists earlier kept,
    session_rows open_session (messages seeded_world) earlier /\
    most_recent 6 earlier kept /\
    map to_content seeded_messages = map to_content (rev kept).
Proof.
  apply (POST_window_last_six calm_env
           (post (Some "And returns?") (Some open_session)) seeded_world
           (fst (POST calm_env (post (Some "And returns?") (Some open_session))
                      seeded_world))
           (snd (POST calm_env (post (Some "And returns?") (Some open_session))
                      seeded_world))
           (map to_content seeded_messages) "And returns?" open_session).
  - vm_compute. reflexivity.
  - vm_compute. reflexivity.
  - reflexivity.
  - vm_compute. auto 10.
  - repeat constructor; simpl; intros _; lia.
Defined.
